(** * ccache-storage-http-go: the protocol server and the HTTP storage client

    A shallow embedding of [protocol.go], of the storage client
    ([storageClient]: [keyToPath], [buildURL], [get], [put], [remove],
    [exists], [addHeaders]) and of the IPC server ([ipcServer]:
    [handleConnection], [resetIdleTimer]), followed by the properties of
    the specification that were checked against them.

    Conventions.
    - A Go [[]byte] is a [list byte]; a Go [string] is a [string] (both are
      byte sequences, [list_byte_of_string] and [string_of_list_byte]
      convert as Go's [[]byte(s)] and [string(b)] do).
    - A Go [int] is a [Z]; a [uint64] is a [Z] in [0, 2^64).
    - A run-time panic is an explicit outcome ([Panics]).
    - A function returning [(T, error)] is a computation in the monad [io],
      which threads the state the function can touch and stops at the
      first non-nil error that the source returns early on.
    - Logging ([logger.logf]) writes to a side file only and the mutexes
      serialise calls; the embedding is sequential and leaves both out. *)

From Stdlib Require Import ZArith NArith Lia List Bool.
From Stdlib Require Import Strings.String Strings.Ascii Strings.Byte.
From Stdlib Require Import Numbers.DecimalString.
From stdpp Require Import base gmap strings list fin_maps.
Import ListNotations.

Local Open Scope string_scope.
Local Open Scope Z_scope.

(** ** Go run-time basics *)

Module Go.

(** The outcome of evaluating an expression that may panic. *)
Inductive outcome (A : Type) : Type :=
| Returns (a : A)
| Panics (what : string).
Arguments Returns {A} a.
Arguments Panics {A} what.

Definition obind {A B} (x : outcome A) (f : A -> outcome B) : outcome B :=
  match x with
  | Returns a => f a
  | Panics w => Panics w
  end.

(** [len(s)] for a string, as a Go [int]. *)
Definition len (s : string) : Z := Z.of_nat (String.length s).

(** [len(b)] for a byte slice. *)
Definition blen (b : list byte) : Z := Z.of_nat (List.length b).

(** [s[lo:hi]]: panics unless [0 <= lo <= hi <= len(s)]. *)
Definition slice (s : string) (lo hi : Z) : outcome string :=
  if (0 <=? lo) && (lo <=? hi) && (hi <=? len s)
  then Returns (substring (Z.to_nat lo) (Z.to_nat (hi - lo)) s)
  else Panics "slice bounds out of range".

(** [s[:hi]] *)
Definition slice_to (s : string) (hi : Z) : outcome string := slice s 0 hi.

(** [s[lo:]] *)
Definition slice_from (s : string) (lo : Z) : outcome string :=
  slice s lo (len s).

(** [strings.HasSuffix] *)
Definition HasSuffix (s suffix : string) : bool :=
  let n := String.length s in
  let m := String.length suffix in
  (m <=? n)%nat && String.eqb (substring (n - m) m s) suffix.

(** [%d] of an [int]. *)
Definition itoa (n : Z) : string := NilZero.string_of_int (Z.to_int n).

End Go.

Notation "'let!' x ':=' a 'in' b" := (Go.obind a (fun x => b))
  (at level 10, x name, a at level 100, b at level 200, only parsing).

(** ** encoding/hex *)

Module Hex.

Definition hextable : string := "0123456789abcdef".

Definition digit (n : N) : ascii :=
  match String.get (N.to_nat n) hextable with
  | Some c => c
  | None => "0"%char
  end.

(** The two characters [hextable[v>>4]], [hextable[v&0x0f]] of one byte:
    also what [%02x] prints for a [byte]. *)
Definition encodeByte (v : byte) (tl : string) : string :=
  String (digit (N.shiftr (Byte.to_N v) 4))
    (String (digit (N.land (Byte.to_N v) 15)) tl).

(** [hex.EncodeToString] *)
Fixpoint EncodeToString (src : list byte) : string :=
  match src with
  | [] => EmptyString
  | v :: rest => encodeByte v (EncodeToString rest)
  end.

Definition isHexDigit (c : ascii) : bool :=
  let n := N_of_ascii c in
  ((48 <=? n) && (n <=? 57) || (97 <=? n) && (n <=? 102))%N.

Fixpoint allHex (s : string) : bool :=
  match s with
  | EmptyString => true
  | String c tl => isHexDigit c && allHex tl
  end.

End Hex.

(** ** Errors and the [io] monad *)

(** The values of Go's [error] interface that the program can meet. *)
Inductive error : Type :=
| EOF                           (* io.EOF *)
| ErrUnexpectedEOF              (* io.ErrUnexpectedEOF *)
| ErrClosedPipe                 (* a failed conn.Write *)
| ErrHTTP (status : Z)          (* fmt.Errorf("HTTP %d", resp.StatusCode) *)
| ErrTransport (msg : string).  (* an error of http.Client.Do or of reading a body *)

(** [err.Error()] *)
Definition Error (e : error) : string :=
  match e with
  | EOF => "EOF"
  | ErrUnexpectedEOF => "unexpected EOF"
  | ErrClosedPipe => "io: read/write on closed pipe"
  | ErrHTTP status => "HTTP " ++ Go.itoa status
  | ErrTransport msg => msg
  end.

Module IO.

(** What a call produces: a value with a nil error, a non-nil error, or
    a panic that unwinds the goroutine. *)
Inductive result (A : Type) : Type :=
| Ok (a : A)
| Fail (e : error)
| Crash (what : string).
Arguments Ok {A} a.
Arguments Fail {A} e.
Arguments Crash {A} what.

Definition io (St A : Type) : Type := St -> result A * St.

Definition ret {St A} (a : A) : io St A := fun st => (Ok a, st).

Definition fail {St A} (e : error) : io St A := fun st => (Fail e, st).

(** [x, err := m; if err != nil { return err }; k x] *)
Definition bind {St A B} (m : io St A) (k : A -> io St B) : io St B :=
  fun st =>
    match m st with
    | (Ok a, st') => k a st'
    | (Fail e, st') => (Fail e, st')
    | (Crash w, st') => (Crash w, st')
    end.

(** A pure expression that may panic. *)
Definition eval {St A} (x : Go.outcome A) : io St A :=
  fun st =>
    match x with
    | Go.Returns a => (Ok a, st)
    | Go.Panics w => (Crash w, st)
    end.

(** [x, err := m] with the error inspected by the caller instead of
    returned at once. *)
Definition try {St A} (m : io St A) : io St (error + A) :=
  fun st =>
    match m st with
    | (Ok a, st') => (Ok (inr a), st')
    | (Fail e, st') => (Ok (inl e), st')
    | (Crash w, st') => (Crash w, st')
    end.

(** Run a computation on the first or on the second half of a pair. *)
Definition onFst {S1 S2 A} (m : io S1 A) : io (S1 * S2) A :=
  fun '(s1, s2) => let '(r, s1') := m s1 in (r, (s1', s2)).

Definition onSnd {S1 S2 A} (m : io S2 A) : io (S1 * S2) A :=
  fun '(s1, s2) => let '(r, s2') := m s2 in (r, (s1, s2')).

End IO.

Notation "x <- m ;; k" := (IO.bind m (fun x => k))
  (at level 100, m at next level, right associativity, only parsing).
Notation "m ;;; k" := (IO.bind m (fun _ => k))
  (at level 100, right associativity, only parsing).

(** ** net/http, as far as the storage client uses it *)

Module HTTP.

Inductive method : Type := GET | HEAD | PUT | DELETE.

Definition isAlphaLower (n : N) : bool := ((97 <=? n) && (n <=? 122))%N.
Definition isAlphaUpper (n : N) : bool := ((65 <=? n) && (n <=? 90))%N.
Definition isDigit (n : N) : bool := ((48 <=? n) && (n <=? 57))%N.

(** [textproto.validHeaderFieldByte]: the token characters of RFC 7230. *)
Definition validHeaderFieldByte (c : ascii) : bool :=
  let n := N_of_ascii c in
  isAlphaLower n || isAlphaUpper n || isDigit n
  || existsb (N.eqb n) [33; 35; 36; 37; 38; 39; 42; 43; 45; 46; 94; 95; 96; 124; 126]%N.

Fixpoint allValid (s : string) : bool :=
  match s with
  | EmptyString => true
  | String c tl => validHeaderFieldByte c && allValid tl
  end.

(** The rewriting loop of [textproto.canonicalMIMEHeaderKey]: upper case
    for the first letter and after each dash, lower case elsewhere. *)
Fixpoint canonicalize (upper : bool) (s : string) : string :=
  match s with
  | EmptyString => EmptyString
  | String c tl =>
      let n := N_of_ascii c in
      let c' :=
        if upper && isAlphaLower n then ascii_of_N (n - 32)
        else if negb upper && isAlphaUpper n then ascii_of_N (n + 32)
        else c in
      String c' (canonicalize (Ascii.eqb c' "-") tl)
  end.

(** [textproto.CanonicalMIMEHeaderKey]: a key with a byte that is not a
    token character is returned unchanged. *)
Definition CanonicalMIMEHeaderKey (s : string) : string :=
  if allValid s then canonicalize true s else s.

(** [http.Header]. Only [Set] is ever applied to a request's header, so
    each key holds one value. *)
Abbreviation Header := (gmap string string).

(** [Header.Set] *)
Definition Set_ (key value : string) (h : Header) : Header :=
  <[CanonicalMIMEHeaderKey key := value]> h.

(** [Header.Get] *)
Definition Get (key : string) (h : Header) : option string :=
  h !! CanonicalMIMEHeaderKey key.

Record Request : Type := mkRequest {
  Method : method;
  URL : string;
  Hdr : Header;
  Body : list byte
}.

Record Response : Type := mkResponse {
  StatusCode : Z;
  RespBody : list byte;            (* the bytes the body delivers *)
  RespBodyErr : option error       (* then io.EOF (None) or a read error *)
}.

(** [http.NewRequest]. The methods are the four constants and the URL
    is one rendered by [url.URL.String], so the error result, which the
    source checks, is nil. *)
Definition NewRequest (m : method) (urlStr : string) (body : list byte) : Request :=
  mkRequest m urlStr ∅ body.

Definition setHeader (key value : string) (req : Request) : Request :=
  mkRequest (Method req) (URL req) (Set_ key value (Hdr req)) (Body req).

(** The client and everything behind it: [RoundTrip] answers a request
    given the requests sent before it; [Sent] records every call of
    [client.Do], oldest first. *)
Record Client : Type := mkClient {
  RoundTrip : list Request -> Request -> error + Response;
  Sent : list Request
}.

(** [client.Do(req)] *)
Definition Do (req : Request) : IO.io Client Response :=
  fun c =>
    let c' := mkClient (RoundTrip c) (Sent c ++ [req]) in
    match RoundTrip c (Sent c) req with
    | inl e => (IO.Fail e, c')
    | inr resp => (IO.Ok resp, c')
    end.

(** [io.ReadAll(resp.Body)] *)
Definition ReadAll {St} (resp : Response) : IO.io St (list byte) :=
  match RespBodyErr resp with
  | None => IO.ret (RespBody resp)
  | Some e => IO.fail e
  end.

Definition StatusNotFound : Z := 404.
Definition StatusOK : Z := 200.

End HTTP.

(** ** The storage client: key layout *)

Module Storage.

Definition sha256HexSize : Z := 64.

(** [storageClient.keyToPath], as a function of the [layout] field. *)
Definition keyToPath (layout : string) (key : list byte) : Go.outcome string :=
  let keyHex := Hex.EncodeToString key in
  if String.eqb layout "flat" then
    Go.Returns keyHex
  else if String.eqb layout "bazel" then
    if sha256HexSize <=? Go.len keyHex then
      let! pre := Go.slice_to keyHex sha256HexSize in
      Go.Returns ("ac/" ++ pre)
    else
      let! pad := Go.slice_to keyHex (sha256HexSize - Go.len keyHex) in
      Go.Returns ("ac/" ++ keyHex ++ pad)
  else (* default: subdirs *)
    if Go.len keyHex <? 2 then
      Go.Returns keyHex
    else
      let! dir := Go.slice_to keyHex 2 in
      let! file := Go.slice_from keyHex 2 in
      Go.Returns (dir ++ "/" ++ file).

(** [url.URL] of net/url, reduced to the fields that a base URL of the
    form [scheme://host/path] sets: the opaque part, the user info, the
    raw path, the query and the fragment are taken to be empty. *)
Record URL : Type := mkURL {
  Scheme : string;
  Host : string;
  Path : string
}.

(** The two modes in which [String] escapes the parts of such a URL. *)
Inductive encoding : Type :=
| encodePath
| encodeHost.

Definition oneOf (c : ascii) (set : string) : bool :=
  existsb (Ascii.eqb c) (list_ascii_of_string set).

(** [shouldEscape(c, mode)] of net/url: letters and digits are never
    escaped; a host keeps the sub-delimiters, the colon, the brackets,
    the angle brackets and the double quote; the marks [-_.~] are kept;
    of the reserved characters a path escapes the question mark only;
    everything else is escaped. *)
Definition shouldEscape (c : ascii) (mode : encoding) : bool :=
  let n := N_of_ascii c in
  if ((97 <=? n) && (n <=? 122) || (65 <=? n) && (n <=? 90)
      || (48 <=? n) && (n <=? 57))%N then false
  else if match mode with
          | encodeHost => oneOf c "!$&'()*+,;=:[]<>" || Ascii.eqb c "034"%char
          | encodePath => false
          end then false
  else if oneOf c "-_.~" then false
  else if oneOf c "$&+,/:;=?@" then
    match mode with
    | encodePath => Ascii.eqb c "?"%char
    | encodeHost => true
    end
  else true.

Definition upperhex : string := "0123456789ABCDEF".

Definition upperDigit (n : N) : ascii :=
  match String.get (N.to_nat n) upperhex with
  | Some c => c
  | None => "0"%char
  end.

(** [escape(s, mode)]: [%XX] for every byte that [shouldEscape]. *)
Fixpoint escape (s : string) (mode : encoding) : string :=
  match s with
  | EmptyString => EmptyString
  | String c tl =>
      if shouldEscape c mode then
        String "%"%char
          (String (upperDigit (N.shiftr (N_of_ascii c) 4))
             (String (upperDigit (N.land (N_of_ascii c) 15)) (escape tl mode)))
      else String c (escape tl mode)
  end.

(** [URL.EscapedPath], for an empty raw path. *)
Definition EscapedPath (u : URL) : string :=
  if String.eqb (Path u) "*" then "*" else escape (Path u) encodePath.

Definition nonEmpty (s : string) : bool := negb (String.eqb s EmptyString).

Definition startsWithSlash (s : string) : bool :=
  match s with
  | String c _ => Ascii.eqb c "/"%char
  | EmptyString => false
  end.

(** Whether the segment of [path] before its first slash holds a colon
    ([strings.Cut], then [strings.Contains]). *)
Fixpoint firstSegmentHasColon (path : string) : bool :=
  match path with
  | EmptyString => false
  | String c tl =>
      if Ascii.eqb c "/"%char then false
      else if Ascii.eqb c ":"%char then true
      else firstSegmentHasColon tl
  end.

(** [URL.String], for the fields above: the scheme and a colon, two
    slashes and the escaped host, then the escaped path, with a slash
    before a path that does not start with one. *)
Definition URL_String (u : URL) : string :=
  let buf := if nonEmpty (Scheme u) then Scheme u ++ ":" else EmptyString in
  let buf :=
    if nonEmpty (Scheme u) || nonEmpty (Host u) then
      let buf :=
        if nonEmpty (Host u) || nonEmpty (Path u) then buf ++ "//" else buf in
      if nonEmpty (Host u) then buf ++ escape (Host u) encodeHost else buf
    else buf in
  let path := EscapedPath u in
  let buf :=
    if nonEmpty path && negb (startsWithSlash path) && nonEmpty (Host u)
    then buf ++ "/" else buf in
  let buf :=
    if String.eqb buf EmptyString && firstSegmentHasColon path then "./" else buf in
  buf ++ path.

Record storageClient : Type := mkStorageClient {
  baseURL : URL;
  layout : string;
  bearerToken : string;
  (** [map[string]string]; the pairs are listed in the order in which
      [range] visits them, which Go leaves unspecified. *)
  headers : list (string * string)
}.

(** Lines 74 to 80 of [buildURL]: the new [base.Path]. *)
Definition joinPath (basePath path : string) : string :=
  if Go.HasSuffix basePath "/" then basePath ++ path
  else if String.eqb basePath EmptyString then "/" ++ path
  else basePath ++ "/" ++ path.

Definition buildURL (s : storageClient) (key : list byte) : Go.outcome string :=
  let base := baseURL s in
  let! path := keyToPath (layout s) key in
  Go.Returns (URL_String (mkURL (Scheme base) (Host base) (joinPath (Path base) path))).

(** The loop of [addHeaders] over the configured headers. *)
Definition rangeHeaders (hs : list (string * string)) (h : HTTP.Header) : HTTP.Header :=
  fold_left (fun acc kv => HTTP.Set_ (fst kv) (snd kv) acc) hs h.

Definition addHeaders (s : storageClient) (req : HTTP.Request) : HTTP.Request :=
  let req :=
    if String.eqb (bearerToken s) EmptyString then req
    else HTTP.setHeader "Authorization" ("Bearer " ++ bearerToken s) req in
  HTTP.mkRequest (HTTP.Method req) (HTTP.URL req)
    (rangeHeaders (headers s) (HTTP.Hdr req)) (HTTP.Body req).

Definition exists_ (s : storageClient) (urlStr : string) : IO.io HTTP.Client bool :=
  let req := HTTP.NewRequest HTTP.HEAD urlStr [] in
  let req := addHeaders s req in
  resp <- HTTP.Do req ;;
  IO.ret (HTTP.StatusCode resp =? HTTP.StatusOK).

Definition get (s : storageClient) (key : list byte) : IO.io HTTP.Client (list byte * bool) :=
  urlStr <- IO.eval (buildURL s key) ;;
  let req := HTTP.NewRequest HTTP.GET urlStr [] in
  let req := addHeaders s req in
  resp <- HTTP.Do req ;;
  if HTTP.StatusCode resp =? HTTP.StatusNotFound then
    IO.ret ([], false)
  else if negb (HTTP.StatusCode resp =? HTTP.StatusOK) then
    IO.fail (ErrHTTP (HTTP.StatusCode resp))
  else
    value <- HTTP.ReadAll resp ;;
    IO.ret (value, true).

(** Lines 143 to 164 of [put]: the PUT request itself. *)
Definition putRequest (s : storageClient) (urlStr : string) (value : list byte)
  : IO.io HTTP.Client bool :=
  let req := HTTP.NewRequest HTTP.PUT urlStr value in
  let req := addHeaders s req in
  let req := HTTP.setHeader "Content-Type" "application/octet-stream" req in
  resp <- HTTP.Do req ;;
  if (200 <=? HTTP.StatusCode resp) && (HTTP.StatusCode resp <? 300) then
    IO.ret true
  else
    IO.fail (ErrHTTP (HTTP.StatusCode resp)).

Definition put (s : storageClient) (key value : list byte) (overwrite : bool)
  : IO.io HTTP.Client bool :=
  urlStr <- IO.eval (buildURL s key) ;;
  if negb overwrite then
    found <- exists_ s urlStr ;;
    if found then IO.ret false else putRequest s urlStr value
  else
    putRequest s urlStr value.

Definition remove (s : storageClient) (key : list byte) : IO.io HTTP.Client bool :=
  urlStr <- IO.eval (buildURL s key) ;;
  let req := HTTP.NewRequest HTTP.DELETE urlStr [] in
  let req := addHeaders s req in
  resp <- HTTP.Do req ;;
  if HTTP.StatusCode resp =? HTTP.StatusNotFound then
    IO.ret false
  else if (200 <=? HTTP.StatusCode resp) && (HTTP.StatusCode resp <? 300) then
    IO.ret true
  else
    IO.fail (ErrHTTP (HTTP.StatusCode resp)).

End Storage.

(** ** protocol.go *)

Module Protocol.

(** *** The connection, seen from the server *)

(** [incoming]: the bytes the peer sends before it closes its side;
    [outgoing]: the bytes written so far; [room]: how many more bytes
    the peer accepts before writes fail ([None]: it accepts them all);
    [closed]: [conn.Close] ran. *)
Record Conn : Type := mkConn {
  incoming : list byte;
  outgoing : list byte;
  room : option nat;
  closed : bool
}.

(** [w.Write(p)]: a write that does not fit delivers what fits and
    fails. *)
Definition Write (p : list byte) : IO.io Conn unit :=
  fun c =>
    match room c with
    | None =>
        (IO.Ok tt, mkConn (incoming c) (outgoing c ++ p) None (closed c))
    | Some r =>
        if (List.length p <=? r)%nat then
          (IO.Ok tt,
           mkConn (incoming c) (outgoing c ++ p) (Some (r - List.length p)%nat)
             (closed c))
        else
          (IO.Fail ErrClosedPipe,
           mkConn (incoming c) (outgoing c ++ firstn r p) (Some 0%nat) (closed c))
    end.

(** The bytes a writer puts on the wire when the peer accepts them
    all. *)
Definition wire (w : IO.io Conn unit) : list byte :=
  outgoing (snd (w (mkConn [] [] None false))).

(** [io.ReadFull(r, buf)] with [len(buf) = n]: no read at all for an
    empty buffer, [io.EOF] when nothing is left, [io.ErrUnexpectedEOF]
    when the stream ends inside the buffer. *)
Definition ReadFull (n : nat) : IO.io Conn (list byte) :=
  fun c =>
    if (n =? 0)%nat then (IO.Ok [], c)
    else
      match incoming c with
      | [] => (IO.Fail EOF, c)
      | _ =>
          if (n <=? List.length (incoming c))%nat then
            (IO.Ok (firstn n (incoming c)),
             mkConn (skipn n (incoming c)) (outgoing c) (room c) (closed c))
          else
            (IO.Fail ErrUnexpectedEOF,
             mkConn [] (outgoing c) (room c) (closed c))
      end.

(** *** Integers on the wire *)

Definition byteToZ (b : byte) : Z := Z.of_N (Byte.to_N b).

(** The conversion [byte(v)] of an unsigned integer. *)
Definition byteOf (v : Z) : byte :=
  match Byte.of_N (Z.to_N (Z.land v 255)) with
  | Some b => b
  | None => x00
  end.

(** [binary.NativeEndian] is one of the two, fixed by the platform. *)
Inductive ByteOrder : Type := LittleEndian | BigEndian.

Fixpoint putLE (n : nat) (v : Z) : list byte :=
  match n with
  | O => []
  | S k => byteOf v :: putLE k (Z.shiftr v 8)
  end.

Fixpoint getLE (b : list byte) : Z :=
  match b with
  | [] => 0
  | x :: rest => Z.lor (byteToZ x) (Z.shiftl (getLE rest) 8)
  end.

(** [order.PutUint64] *)
Definition PutUint64 (order : ByteOrder) (v : Z) : list byte :=
  match order with
  | LittleEndian => putLE 8 v
  | BigEndian => rev (putLE 8 v)
  end.

(** [order.Uint64] *)
Definition Uint64 (order : ByteOrder) (b : list byte) : Z :=
  match order with
  | LittleEndian => getLE b
  | BigEndian => getLE (rev b)
  end.

(** The largest [int]: [make([]byte, n)] panics beyond it. *)
Definition maxInt : Z := 2 ^ 63 - 1.

(** [make([]byte, n)] for [n] read from a [uint64]. Only the bound of
    the type [int] is modelled. The run time has a lower limit of its
    own, [maxAlloc] below, and gives up when memory runs out; no slice
    that exists in a running program is longer than that limit. *)
Definition makeBytes (n : Z) : Go.outcome nat :=
  if n <=? maxInt then Go.Returns (Z.to_nat n)
  else Go.Panics "makeslice: len out of range".


(** *** Constants *)

Definition protocolVersion : byte := x01.
Definition cap0 : byte := x00.

Definition requestGet : byte := x00.
Definition requestPut : byte := x01.
Definition requestRemove : byte := x02.
Definition requestStop : byte := x03.

Definition responseOK : byte := x00.
Definition responseNoop : byte := x01.
Definition responseErr : byte := x02.

Definition putFlagOverwrite : Z := 1.

(** *** The codec *)

Definition writeByte (b : byte) : IO.io Conn unit := Write [b].

Definition readByte : IO.io Conn byte :=
  buf <- ReadFull 1 ;;
  IO.ret (nth 0 buf x00).

Definition writeGreeting : IO.io Conn unit :=
  writeByte protocolVersion ;;;
  let caps := [cap0] in
  writeByte (byteOf (Go.blen caps)) ;;;
  fold_right (fun cap k => writeByte cap ;;; k) (IO.ret tt) caps.

Definition readRequest : IO.io Conn byte := readByte.

Definition readKey : IO.io Conn (list byte) :=
  keyLen <- readByte ;;
  ReadFull (N.to_nat (Byte.to_N keyLen)).

(** Modelled from the spec: the client's encoder of a key, which is
    not part of the server's sources. The wire format of a key is
    [keyLen:u8] followed by [keyLen] bytes. *)
Definition writeKey (key : list byte) : IO.io Conn unit :=
  writeByte (byteOf (Go.blen key)) ;;;
  Write key.

Definition writeOK : IO.io Conn unit := writeByte responseOK.

Definition writeNoop : IO.io Conn unit := writeByte responseNoop.

Definition writeMsg (msg : string) : IO.io Conn unit :=
  msg <- IO.eval (if 255 <? Go.len msg then Go.slice_to msg 255
                  else Go.Returns msg) ;;
  writeByte (byteOf (Go.len msg)) ;;;
  Write (list_byte_of_string msg).

Definition writeErr (msg : string) : IO.io Conn unit :=
  writeByte responseErr ;;;
  writeMsg msg.

Definition readMsg : IO.io Conn string :=
  msgLen <- readByte ;;
  msg <- ReadFull (N.to_nat (Byte.to_N msgLen)) ;;
  IO.ret (string_of_list_byte msg).

(** *** The request handlers *)

(** The [storage] interface: an implementation [T] with the state [St]
    its methods work on. *)
Class storage (T St : Type) : Type := {
  get : T -> list byte -> IO.io St (list byte * bool);
  put : T -> list byte -> list byte -> bool -> IO.io St bool;
  remove : T -> list byte -> IO.io St bool
}.

(** [fmt.Sprintf("unknown request type: 0x%02x", reqType)] *)
Definition unknownRequestType (reqType : byte) : string :=
  "unknown request type: 0x" ++ Hex.encodeByte reqType EmptyString.

Section Handlers.

Variable NativeEndian : ByteOrder.

Definition readValue : IO.io Conn (list byte) :=
  raw <- ReadFull 8 ;;
  let valueLen := Uint64 NativeEndian raw in
  n <- IO.eval (makeBytes valueLen) ;;
  ReadFull n.

Definition writeValue (value : list byte) : IO.io Conn unit :=
  let valueLen := Go.blen value in
  Write (PutUint64 NativeEndian valueLen) ;;;
  Write value.

Context {T St : Type} `{storage T St}.

(** The handlers read and write the connection and call the storage:
    their state is the pair of both. *)
Definition handleGet (s : T) : IO.io (Conn * St) unit :=
  key <- IO.onFst readKey ;;
  res <- IO.try (IO.onSnd (get s key)) ;;
  match res with
  | inl err => IO.onFst (writeErr (Error err))
  | inr (value, found) =>
      if negb found then IO.onFst writeNoop
      else
        IO.onFst writeOK ;;;
        IO.onFst (writeValue value)
  end.

Definition handlePut (s : T) : IO.io (Conn * St) unit :=
  key <- IO.onFst readKey ;;
  flags <- IO.onFst readByte ;;
  value <- IO.onFst readValue ;;
  let overwrite := negb (Z.land (byteToZ flags) putFlagOverwrite =? 0) in
  res <- IO.try (IO.onSnd (put s key value overwrite)) ;;
  match res with
  | inl err => IO.onFst (writeErr (Error err))
  | inr stored =>
      if negb stored then IO.onFst writeNoop
      else IO.onFst writeOK
  end.

Definition handleRemove (s : T) : IO.io (Conn * St) unit :=
  key <- IO.onFst readKey ;;
  res <- IO.try (IO.onSnd (remove s key)) ;;
  match res with
  | inl err => IO.onFst (writeErr (Error err))
  | inr removed =>
      if negb removed then IO.onFst writeNoop
      else IO.onFst writeOK
  end.

Definition handleStop : IO.io (Conn * St) unit := IO.onFst writeOK.

(** [processRequest]: the value is [stopRequested]; every non-nil
    error is returned together with [false]. *)
Definition processRequest (s : T) : IO.io (Conn * St) bool :=
  reqType <- IO.onFst readRequest ;;
  if Byte.eqb reqType requestGet then
    handleGet s ;;; IO.ret false
  else if Byte.eqb reqType requestPut then
    handlePut s ;;; IO.ret false
  else if Byte.eqb reqType requestRemove then
    handleRemove s ;;; IO.ret false
  else if Byte.eqb reqType requestStop then
    handleStop ;;; IO.ret true
  else
    IO.onFst (writeErr (unknownRequestType reqType)) ;;; IO.ret false.

End Handlers.

End Protocol.

(** ** The IPC server *)

Module Server.

Import Protocol.

(** [storageClient] implements [storage]; its mutable part is the HTTP
    client. *)
#[export] Instance storageClient_storage : storage Storage.storageClient HTTP.Client := {|
  get := Storage.get;
  put := Storage.put;
  remove := Storage.remove
|}.

(** A [time.Timer] made by [time.AfterFunc]. *)
Record timer : Type := mkTimer {
  timerId : nat;
  timerAfter : Z
}.

Definition timer_eqb (a b : timer) : bool :=
  (timerId a =? timerId b)%nat && (timerAfter a =? timerAfter b).

(** The fields of [ipcServer] that change or decide behaviour, and the
    run-time's view of its timers: [armed] lists the timers that were
    started and neither stopped nor fired; [timersMade] counts the calls
    of [time.AfterFunc]. [ctxDone] is whether [s.ctx] is cancelled. *)
Record ipcServer : Type := mkServer {
  IdleTimeout : Z;
  storage_ : Storage.storageClient;
  ctxDone : bool;
  idleTimer : option timer;
  armed : list timer;
  timersMade : nat
}.

(** [newServer] *)
Definition newServer (idleTimeout : Z) (sc : Storage.storageClient) : ipcServer :=
  mkServer idleTimeout sc false None [] 0.

(** [s.cancel()] *)
Definition cancel (s : ipcServer) : ipcServer :=
  mkServer (IdleTimeout s) (storage_ s) true (idleTimer s) (armed s) (timersMade s).

(** [t.Stop()] *)
Definition stopTimer (t : timer) (ts : list timer) : list timer :=
  filter (fun u => negb (timer_eqb t u)) ts.

Definition resetIdleTimer (s : ipcServer) : ipcServer :=
  if IdleTimeout s =? 0 then s
  else
    let running :=
      match idleTimer s with
      | Some t => stopTimer t (armed s)
      | None => armed s
      end in
    let t := mkTimer (timersMade s) (IdleTimeout s) in
    mkServer (IdleTimeout s) (storage_ s) (ctxDone s) (Some t)
      (t :: running) (S (timersMade s)).

(** The callback given to [time.AfterFunc], run when timer [t] fires. *)
Definition timerFires (t : timer) (s : ipcServer) : ipcServer :=
  cancel (mkServer (IdleTimeout s) (storage_ s) (ctxDone s) (idleTimer s)
            (stopTimer t (armed s)) (timersMade s)).

Definition closeConn (c : Conn) : Conn :=
  mkConn (incoming c) (outgoing c) (room c) true.

(** How a run of [handleConnection] ends. *)
Inductive ending : Type :=
| Returned
| Panicked (what : string).

Section Connection.

Variable NativeEndian : ByteOrder.

(** The [for] loop of [handleConnection]; [None] when [fuel]
    iterations were not enough. The deferred [conn.Close] is part of
    every way out. *)
Fixpoint requestLoop (fuel : nat) (s : ipcServer) (st : Conn * HTTP.Client)
  : option (ending * ipcServer * (Conn * HTTP.Client)) :=
  match fuel with
  | O => None
  | S fuel' =>
      match processRequest NativeEndian (storage_ s) st with
      | (IO.Fail _, (c, h)) => Some (Returned, s, (closeConn c, h))
      | (IO.Crash w, (c, h)) => Some (Panicked w, s, (closeConn c, h))
      | (IO.Ok true, (c, h)) => Some (Returned, cancel s, (closeConn c, h))
      | (IO.Ok false, st') => requestLoop fuel' (resetIdleTimer s) st'
      end
  end.

(** [handleConnection]. Every iteration that does not leave the loop
    has read at least the request type, so one iteration more than
    there are incoming bytes is enough. *)
Definition handleConnection (s : ipcServer) (st : Conn * HTTP.Client)
  : option (ending * ipcServer * (Conn * HTTP.Client)) :=
  match IO.onFst writeGreeting st with
  | (IO.Ok _, st') => requestLoop (S (List.length (incoming (fst st')))) s st'
  | (IO.Fail _, (c, h)) => Some (Returned, s, (closeConn c, h))
  | (IO.Crash w, (c, h)) => Some (Panicked w, s, (closeConn c, h))
  end.

End Connection.

(** *** The life of the server *)

(** What can happen to a running server: a connection is accepted
    ([acceptLoop]), a connection handler has processed a request or a
    stop request ([handleConnection]), an armed timer fires, or the
    context is cancelled from outside. *)
Inductive event : Type :=
| Accepted
| Processed
| StopRequested
| TimerFired (t : timer)
| Cancelled.

Inductive step : ipcServer -> event -> ipcServer -> Prop :=
| step_accept s : step s Accepted (resetIdleTimer s)
| step_processed s : step s Processed (resetIdleTimer s)
| step_stop s : step s StopRequested (cancel s)
| step_fire s t : In t (armed s) -> step s (TimerFired t) (timerFires t s)
| step_cancelled s : step s Cancelled (cancel s).

(** Runs of the server: the events so far, oldest first. *)
Inductive run : ipcServer -> list event -> ipcServer -> Prop :=
| run_nil s : run s [] s
| run_snoc s evs s' ev s'' : run s evs s' -> step s' ev s'' -> run s (evs ++ [ev]) s''.

(** The state in which [run] starts to accept: [newServer], then the
    first [resetIdleTimer]. *)
Definition started (idleTimeout : Z) (sc : Storage.storageClient) : ipcServer :=
  resetIdleTimer (newServer idleTimeout sc).

End Server.

(** ** Sample configurations, used by the examples below *)

Module Sample.

Import Storage HTTP.

Definition base : Storage.URL := mkURL "http" "h" "/cache".

(** The default layout, no token, no extra headers. *)
Definition plain : storageClient := mkStorageClient base "subdirs" EmptyString [].

(** A token and an extra header that names the content type. *)
Definition typed : storageClient :=
  mkStorageClient base "subdirs" "secret" [("content-type", "text/plain")].

Definition bazel : storageClient := mkStorageClient base "bazel" EmptyString [].

(** A backend that answers every request with the given status and
    body. *)
Definition always (status : Z) (body : list byte) : Client :=
  mkClient (fun _ _ => inr (mkResponse status body None)) [].

(** A backend that answers [HEAD] with one status and every other
    method with another. *)
Definition headThen (headStatus otherStatus : Z) : Client :=
  mkClient
    (fun _ req =>
       match Method req with
       | HEAD => inr (mkResponse headStatus [] None)
       | _ => inr (mkResponse otherStatus [] None)
       end)
    [].

(** A backend that cannot be reached. *)
Definition unreachable : Client :=
  mkClient (fun _ _ => inl (ErrTransport "connection refused")) [].

Definition server : Server.ipcServer := Server.started 0 plain.

End Sample.

(** ** Vocabulary of the statements *)

Section RequestVocabulary.

Import Storage HTTP.

(** The request that [exists] sends. *)
Definition headRequest (s : storageClient) (urlStr : string) : Request :=
  addHeaders s (NewRequest HEAD urlStr []).

(** The request that [put] sends for the write itself. *)
Definition putRequestSent (s : storageClient) (urlStr : string) (value : list byte)
  : Request :=
  setHeader "Content-Type" "application/octet-stream"
    (addHeaders s (NewRequest PUT urlStr value)).

(** The requests that a call added to the record of the client. *)
Definition newlySent (before after : Client) : list Request :=
  skipn (List.length (Sent before)) (Sent after).

(** The requests that the four operations send. *)
Inductive outgoing_request (s : storageClient) : Request -> Prop :=
| sends_get urlStr :
    outgoing_request s (addHeaders s (NewRequest GET urlStr []))
| sends_head urlStr :
    outgoing_request s (addHeaders s (NewRequest HEAD urlStr []))
| sends_delete urlStr :
    outgoing_request s (addHeaders s (NewRequest DELETE urlStr []))
| sends_put urlStr value :
    outgoing_request s
      (setHeader "Content-Type" "application/octet-stream"
         (addHeaders s (NewRequest PUT urlStr value))).

End RequestVocabulary.

Section ConnectionVocabulary.

Import Protocol Server.

(** The peer accepts [n] more bytes. *)
Definition fits (r : option nat) (n : nat) : Prop :=
  match r with
  | None => True
  | Some k => (n <= k)%nat
  end.

(** The room left after [n] bytes were written. *)
Definition spend (r : option nat) (n : nat) : option nat :=
  match r with
  | None => None
  | Some k => Some (k - n)%nat
  end.

(** The reply to a request of unknown type [b]: the status byte, the
    length byte and the 26 bytes of the message. *)
Definition unknownReply (b : byte) : list byte :=
  responseErr :: byteOf (Go.len (unknownRequestType b))
    :: list_byte_of_string (unknownRequestType b).

(** The value of a lower-case hexadecimal digit. *)
Definition hexValue (c : ascii) : option N :=
  let n := N_of_ascii c in
  if ((48 <=? n) && (n <=? 57))%N then Some (n - 48)%N
  else if ((97 <=? n) && (n <=? 102))%N then Some (n - 87)%N
  else None.

(** The fields of a put request as [handlePut] reads them after the type
    byte: the key, the flags, the value. *)
Definition putFields (order : ByteOrder) (key : list byte) (flags : byte)
  (value : list byte) : list byte :=
  wire (writeKey key) ++ flags :: wire (writeValue order value).

(** What stays true of a server whose idle timeout is zero. *)
Definition timerless (s : ipcServer) : Prop :=
  IdleTimeout s = 0 /\ idleTimer s = None /\ armed s = [] /\ timersMade s = 0%nat.

(** A computation on the connection that never puts bytes back into the
    incoming stream. *)
Definition quiet {A : Type} (m : IO.io Conn A) : Prop :=
  forall c, (List.length (incoming (snd (m c))) <= List.length (incoming c))%nat.

(** The same for the handlers, whose state pairs the connection with
    the state of the storage. *)
Definition quiet2 {St A : Type} (m : IO.io (Conn * St) A) : Prop :=
  forall st,
    (List.length (incoming (fst (snd (m st)))) <= List.length (incoming (fst st)))%nat.

End ConnectionVocabulary.

(** ** Vocabulary of the further statements *)

Section ReplyVocabulary.

Import Protocol.

(** An [Err] response as it appears on the wire. *)
Definition errReply (msg : string) : list byte :=
  responseErr :: wire (writeMsg msg).

(** An [Ok] response that carries a value. *)
Definition valueReply (order : ByteOrder) (value : list byte) : list byte :=
  responseOK :: wire (writeValue order value).

(** The greeting as it appears on the wire. *)
Definition greeting : list byte := wire writeGreeting.

End ReplyVocabulary.

Section FramingVocabulary.

Import Protocol.



End FramingVocabulary.

Section TimerVocabulary.

Import Server.

(** The events after which the source calls [resetIdleTimer]. *)
Definition isReset (ev : event) : bool :=
  match ev with
  | Accepted | Processed => true
  | _ => false
  end.

(** How often the idle timer was reset by the events of a run. *)
Definition resets (evs : list event) : nat := List.length (List.filter isReset evs).

(** What stays true of a server whose idle timeout [d] is not zero,
    after [n] resets. *)
Definition ticking (d : Z) (n : nat) (s : ipcServer) : Prop :=
  IdleTimeout s = d /\ idleTimer s = Some (mkTimer n d) /\
  timersMade s = S n /\ (armed s = [mkTimer n d] \/ armed s = []).

End TimerVocabulary.

Section URLVocabulary.

Import Storage.

(** The storage client [s] with the path of its base URL replaced. *)
Definition withBasePath (s : storageClient) (p : string) : storageClient :=
  mkStorageClient (mkURL (Scheme (baseURL s)) (Host (baseURL s)) p)
    (layout s) (bearerToken s) (headers s).

End URLVocabulary.

(** ** config.go *)

Module Config.

(** The errors of [parseConfig]; the strings are the texts that could not
    be parsed. *)
Inductive configError : Type :=
| URLNotSet                                 (* "CRSH_URL not set" *)
| InvalidURL (cause : string)               (* "invalid CRSH_URL: ..." *)
| InvalidIdleTimeout (text : string)        (* "invalid CRSH_IDLE_TIMEOUT: ..." *)
| InvalidNumAttr (text : string).           (* "invalid CRSH_NUM_ATTR: ..." *)

(** [config], with the type [U] of a parsed URL left open. [Headers] is
    the Go map. *)
Record config (U : Type) : Type := mkConfig {
  LogFile : string;
  IPCEndpoint : string;
  URL : U;
  IdleTimeout : Z;
  Layout : string;
  BearerToken : string;
  Headers : gmap string string
}.
Arguments mkConfig {U}.
Arguments LogFile {U}.
Arguments IPCEndpoint {U}.
Arguments URL {U}.
Arguments IdleTimeout {U}.
Arguments Layout {U}.
Arguments BearerToken {U}.
Arguments Headers {U}.

Definition minInt64 : Z := - 2 ^ 63.
Definition maxInt64 : Z := 2 ^ 63 - 1.

(** The value of an [int64] expression: the mathematical value wrapped
    into the range of the type. *)
Definition wrap64 (z : Z) : Z := (z + 2 ^ 63) mod 2 ^ 64 - 2 ^ 63.

(** [time.Second], in nanoseconds. *)
Definition Second : Z := 1000000000.

Definition digitValue (c : ascii) : option Z :=
  let n := N_of_ascii c in
  if ((48 <=? n) && (n <=? 57))%N then Some (Z.of_N n - 48) else None.

Fixpoint digits (acc : Z) (s : string) : option Z :=
  match s with
  | EmptyString => Some acc
  | String c tl =>
      match digitValue c with
      | Some d => digits (10 * acc + d) tl
      | None => None
      end
  end.

(** [strconv.Atoi] on a platform with a 64-bit [int]: an optional sign,
    then one decimal digit or more, and a value in the range of [int];
    [None] stands for the error. *)
Definition Atoi (s : string) : option Z :=
  let '(negative, body) :=
    match s with
    | String "-"%char tl => (true, tl)
    | String "+"%char tl => (false, tl)
    | _ => (false, s)
    end in
  match body with
  | EmptyString => None
  | _ =>
      match digits 0 body with
      | Some n =>
          let v := if negative then - n else n in
          if (minInt64 <=? v) && (v <=? maxInt64) then Some v else None
      | None => None
      end
  end.

(** [strings.Index(s, sep)] for a separator of one byte: the index of
    its first occurrence, or -1. *)
Fixpoint Index (s : string) (sep : ascii) : Z :=
  match s with
  | EmptyString => -1
  | String c tl =>
      if Ascii.eqb c sep then 0
      else
        let i := Index tl sep in
        if i <? 0 then -1 else 1 + i
  end.

(** The text of a number, ["0"] when the variable is not set. *)
Definition orZero (text : string) : string :=
  if String.eqb text EmptyString then "0" else text.

Definition setLayout {U} (value : string) (cfg : config U) : config U :=
  mkConfig (LogFile cfg) (IPCEndpoint cfg) (URL cfg) (IdleTimeout cfg) value
    (BearerToken cfg) (Headers cfg).

Definition setBearerToken {U} (value : string) (cfg : config U) : config U :=
  mkConfig (LogFile cfg) (IPCEndpoint cfg) (URL cfg) (IdleTimeout cfg) (Layout cfg)
    value (Headers cfg).

Definition setHeader {U} (key value : string) (cfg : config U) : config U :=
  mkConfig (LogFile cfg) (IPCEndpoint cfg) (URL cfg) (IdleTimeout cfg) (Layout cfg)
    (BearerToken cfg) (<[key := value]> (Headers cfg)).

Section ParseConfig.

Variable U : Type.

(** [url.Parse]: the URL, or the text of the error. *)
Variable Parse : string -> string + U.

(** [runtime.GOOS] *)
Variable GOOS : string.

(** [os.Getenv]: the empty string for a variable that is not set. *)
Variable Getenv : string -> string.

Definition attrKey (i : Z) : string := Getenv ("CRSH_ATTR_KEY_" ++ Go.itoa i).
Definition attrValue (i : Z) : string := Getenv ("CRSH_ATTR_VALUE_" ++ Go.itoa i).

(** The body of the loop over the attributes, for the index [i]. *)
Definition attribute (i : Z) (cfg : config U) : Go.outcome (config U) :=
  let key := attrKey i in
  let value := attrValue i in
  if String.eqb key EmptyString then Go.Returns cfg
  else if String.eqb key "layout" then Go.Returns (setLayout value cfg)
  else if String.eqb key "bearer-token" then Go.Returns (setBearerToken value cfg)
  else if String.eqb key "header" then
    let idx := Index value "="%char in
    if idx <=? 0 then Go.Returns cfg
    else
      let! headerKey := Go.slice_to value idx in
      let! headerValue := Go.slice_from value (idx + 1) in
      Go.Returns (setHeader headerKey headerValue cfg)
  else Go.Returns cfg.

(** The first [m] rounds of the loop, [i] going from 0 to [m - 1]. *)
Definition attributes (m : nat) (cfg : config U) : Go.outcome (config U) :=
  fold_left (fun acc i => let! c := acc in attribute (Z.of_nat i) c)
    (seq 0 m) (Go.Returns cfg).

Definition parseConfig : Go.outcome (configError + config U) :=
  let ipcEndpoint := Getenv "CRSH_IPC_ENDPOINT" in
  let ipcEndpoint :=
    if String.eqb GOOS "windows" then "\\.\pipe\" ++ ipcEndpoint else ipcEndpoint in
  let urlStr := Getenv "CRSH_URL" in
  if String.eqb urlStr EmptyString then Go.Returns (inl URLNotSet)
  else
    match Parse urlStr with
    | inl cause => Go.Returns (inl (InvalidURL cause))
    | inr parsedURL =>
        let idleTimeout := orZero (Getenv "CRSH_IDLE_TIMEOUT") in
        match Atoi idleTimeout with
        | None => Go.Returns (inl (InvalidIdleTimeout idleTimeout))
        | Some timeoutSecs =>
            let numAttr := orZero (Getenv "CRSH_NUM_ATTR") in
            match Atoi numAttr with
            | None => Go.Returns (inl (InvalidNumAttr numAttr))
            | Some n =>
                let cfg :=
                  mkConfig (Getenv "CRSH_LOGFILE") ipcEndpoint parsedURL
                    (wrap64 (timeoutSecs * Second)) "subdirs" EmptyString ∅ in
                let! cfg := attributes (Z.to_nat n) cfg in
                Go.Returns (inr cfg)
            end
        end
    end.

End ParseConfig.

End Config.

(** An environment for the examples: the variables that are set. *)
Module SampleEnv.

Definition vars : list (string * string) :=
  [("CRSH_IPC_ENDPOINT", "/tmp/crsh.sock");
   ("CRSH_URL", "http://h/cache");
   ("CRSH_IDLE_TIMEOUT", "300");
   ("CRSH_NUM_ATTR", "4");
   ("CRSH_ATTR_KEY_0", "layout"); ("CRSH_ATTR_VALUE_0", "flat");
   ("CRSH_ATTR_KEY_1", "header"); ("CRSH_ATTR_VALUE_1", "X-Tag=a=b");
   ("CRSH_ATTR_KEY_2", "layout"); ("CRSH_ATTR_VALUE_2", "bazel");
   ("CRSH_ATTR_KEY_3", "header"); ("CRSH_ATTR_VALUE_3", "=nameless")].

Fixpoint lookup (vs : list (string * string)) (name : string) : string :=
  match vs with
  | [] => EmptyString
  | (k, v) :: rest => if String.eqb k name then v else lookup rest name
  end.

Definition Getenv : string -> string := lookup vars.

(** A stand-in for [url.Parse] that accepts every text. *)
Definition Parse (s : string) : string + string := inr s.

Definition parsed : Go.outcome (Config.configError + Config.config string) :=
  Config.parseConfig string Parse "linux" Getenv.

End SampleEnv.

Section ConfigVocabulary.

(** The name and the value that a [header] attribute stands for: the
    text before and the text after its first [=]; none when there is no
    [=] or nothing before it. *)
Definition headerOf (value : string) : option (string * string) :=
  let idx := Config.Index value "="%char in
  if idx <=? 0 then None
  else Some (substring 0 (Z.to_nat idx) value,
             substring (Z.to_nat (idx + 1))
               (String.length value - Z.to_nat (idx + 1)) value).

End ConfigVocabulary.

Section OutputVocabulary.

Import Protocol.

(** A computation on the connection that only adds to what was
    written. *)
Definition grows {A : Type} (m : IO.io Conn A) : Prop :=
  forall c, exists more, outgoing (snd (m c)) = (outgoing c ++ more)%list.

(** The same for the handlers. *)
Definition grows2 {St A : Type} (m : IO.io (Conn * St) A) : Prop :=
  forall st, exists more,
    outgoing (fst (snd (m st))) = (outgoing (fst st) ++ more)%list.

End OutputVocabulary.

(** * Properties *)

(** ** Strings and hex digits *)

Section StringFacts.

Lemma length_append (s1 s2 : string) :
  String.length (s1 ++ s2) = (String.length s1 + String.length s2)%nat.
Proof. induction s1 as [|c s1 IH]; simpl; [reflexivity | now rewrite IH]. Qed.

Lemma substring_0_length (s : string) : substring 0 (String.length s) s = s.
Proof. induction s as [|c s IH]; simpl; [reflexivity | now rewrite IH]. Qed.

Lemma length_substring (s : string) : forall n m : nat,
  (n + m <= String.length s)%nat -> String.length (substring n m s) = m.
Proof.
  induction s as [|c s IH]; intros n m Hle; simpl in *.
  - destruct n, m; simpl; lia.
  - destruct n as [|n].
    + destruct m as [|m]; simpl; [reflexivity |].
      f_equal. apply (IH 0%nat m). lia.
    + apply IH. lia.
Qed.

Lemma allHex_append (s1 s2 : string) :
  Hex.allHex (s1 ++ s2) = Hex.allHex s1 && Hex.allHex s2.
Proof.
  induction s1 as [|c s1 IH]; simpl; [reflexivity |].
  now rewrite IH, andb_assoc.
Qed.

Lemma allHex_substring (s : string) : forall n m : nat,
  Hex.allHex s = true -> Hex.allHex (substring n m s) = true.
Proof.
  induction s as [|c s IH]; intros n m Hs; simpl in *.
  - now destruct n, m.
  - apply andb_true_iff in Hs as [Hc Hs].
    destruct n as [|n]; [destruct m as [|m]; simpl |]; auto.
    rewrite Hc. simpl. now apply IH.
Qed.

Lemma digit_isHex (n : N) : (n < 16)%N -> Hex.isHexDigit (Hex.digit n) = true.
Proof.
  intros Hn.
  assert (Hcases : In n (map N.of_nat (seq 0 16))).
  { apply in_map_iff. exists (N.to_nat n). split; [lia |]. apply in_seq. lia. }
  simpl in Hcases.
  repeat (destruct Hcases as [<- | Hcases]; [reflexivity |]).
  destruct Hcases.
Qed.

Lemma byte_to_N_lt (v : byte) : (Byte.to_N v < 256)%N.
Proof. pose proof (Byte.to_N_bounded v). lia. Qed.

Lemma encodeByte_isHex (v : byte) (tl : string) :
  Hex.allHex (Hex.encodeByte v tl) = Hex.allHex tl.
Proof.
  unfold Hex.encodeByte. simpl.
  pose proof (byte_to_N_lt v) as Hv.
  rewrite !digit_isHex; [reflexivity | |].
  - change 15%N with (N.ones 4). rewrite N.land_ones.
    apply N.mod_lt. discriminate.
  - rewrite N.shiftr_div_pow2. change (2 ^ 4)%N with 16%N.
    apply N.Div0.div_lt_upper_bound. simpl. lia.
Qed.

Lemma EncodeToString_length (key : list byte) :
  String.length (Hex.EncodeToString key) = (2 * List.length key)%nat.
Proof. induction key as [|v key IH]; simpl; [reflexivity | rewrite IH; lia]. Qed.

Lemma EncodeToString_allHex (key : list byte) :
  Hex.allHex (Hex.EncodeToString key) = true.
Proof.
  induction key as [|v key IH]; [reflexivity |].
  cbn [Hex.EncodeToString]. now rewrite encodeByte_isHex.
Qed.

Lemma len_EncodeToString (key : list byte) :
  Go.len (Hex.EncodeToString key) = 2 * Z.of_nat (List.length key).
Proof. unfold Go.len. rewrite EncodeToString_length. lia. Qed.

Lemma slice_in_bounds (s : string) (lo hi : Z) :
  0 <= lo <= hi -> hi <= Go.len s ->
  Go.slice s lo hi = Go.Returns (substring (Z.to_nat lo) (Z.to_nat (hi - lo)) s).
Proof.
  intros [H0 H1] H2. unfold Go.slice.
  now rewrite (proj2 (Z.leb_le _ _) H0), (proj2 (Z.leb_le _ _) H1),
    (proj2 (Z.leb_le _ _) H2).
Qed.

Lemma slice_to_out_of_bounds (s : string) (hi : Z) :
  Go.len s < hi -> Go.slice_to s hi = Go.Panics "slice bounds out of range".
Proof.
  intros H. unfold Go.slice_to, Go.slice.
  rewrite (proj2 (Z.leb_gt _ _) H). now rewrite andb_false_r.
Qed.

End StringFacts.

(** ** The key layout *)

Section KeyToPathFacts.

Import Storage.

(** In [bazel] mode a key of 16 bytes or more gives [ac/] and 64 hex
    digits: the first 64 of its hex form, or its hex form followed by
    that form's own first [64 - len] digits. *)
Lemma keyToPath_bazel_long (key : list byte) :
  (16 <= List.length key)%nat ->
  exists digits : string,
    keyToPath "bazel" key = Go.Returns ("ac/" ++ digits) /\
    String.length digits = 64%nat /\
    Hex.allHex digits = true /\
    let keyHex := Hex.EncodeToString key in
    digits =
      if (64 <=? String.length keyHex)%nat then substring 0 64 keyHex
      else keyHex ++ substring 0 (64 - String.length keyHex) keyHex.
Proof.
  intros Hlen. unfold keyToPath. simpl String.eqb. cbv zeta.
  pose proof (len_EncodeToString key) as HL.
  pose proof (EncodeToString_length key) as HN.
  pose proof (EncodeToString_allHex key) as HH.
  set (keyHex := Hex.EncodeToString key) in *.
  unfold sha256HexSize.
  destruct (Z.leb_spec 64 (Go.len keyHex)) as [Hge | Hlt].
  - unfold Go.slice_to. rewrite slice_in_bounds by lia. cbn [Go.obind].
    change (Z.to_nat 0) with 0%nat. change (Z.to_nat (64 - 0)) with 64%nat.
    exists (substring 0 64 keyHex). split; [reflexivity |]. split; [| split].
    + apply length_substring. lia.
    + now apply allHex_substring.
    + destruct (Nat.leb_spec 64 (String.length keyHex)); [reflexivity | lia].
  - unfold Go.slice_to. rewrite slice_in_bounds by lia. cbn [Go.obind].
    rewrite Z.sub_0_r. change (Z.to_nat 0) with 0%nat.
    replace (Z.to_nat (64 - Go.len keyHex)) with (64 - String.length keyHex)%nat
      by (unfold Go.len; lia).
    exists (keyHex ++ substring 0 (64 - String.length keyHex) keyHex).
    split; [reflexivity |]. split; [| split].
    + rewrite length_append, length_substring by lia. lia.
    + rewrite allHex_append, HH. now apply allHex_substring.
    + destruct (Nat.leb_spec 64 (String.length keyHex)); [lia | reflexivity].
Qed.

(** In [bazel] mode a key shorter than 16 bytes makes the padding slice
    [keyHex[:64-len(keyHex)]] reach beyond [keyHex]: the call panics. *)
Lemma keyToPath_bazel_short (key : list byte) :
  (List.length key < 16)%nat ->
  keyToPath "bazel" key = Go.Panics "slice bounds out of range".
Proof.
  intros Hlen. unfold keyToPath. simpl String.eqb. cbv zeta.
  pose proof (len_EncodeToString key) as HL.
  unfold sha256HexSize.
  destruct (Z.leb_spec 64 (Go.len (Hex.EncodeToString key))) as [Hge | Hlt];
    [lia |].
  rewrite slice_to_out_of_bounds by lia. reflexivity.
Qed.

(** The other layouts never panic. *)
Lemma keyToPath_flat (key : list byte) :
  keyToPath "flat" key = Go.Returns (Hex.EncodeToString key).
Proof. reflexivity. Qed.

(** C10. Every layout string other than [flat] and [bazel] selects the
    subdirs scheme: the hex form itself when it is shorter than 2
    characters, else its first 2 characters, a slash and the rest; the
    call returns (no panic, and [keyToPath] has no error result). *)
Theorem keyToPath_default_is_subdirs (layout : string) (key : list byte) :
  layout <> "flat" -> layout <> "bazel" ->
  let keyHex := Hex.EncodeToString key in
  keyToPath layout key =
    Go.Returns
      (if (String.length keyHex <? 2)%nat then keyHex
       else substring 0 2 keyHex ++ "/"
            ++ substring 2 (String.length keyHex - 2) keyHex).
Proof.
  intros Hflat Hbazel keyHex. unfold keyToPath. fold keyHex.
  rewrite (proj2 (String.eqb_neq _ _) Hflat), (proj2 (String.eqb_neq _ _) Hbazel).
  unfold Go.len.
  destruct (Z.ltb_spec (Z.of_nat (String.length keyHex)) 2) as [Hlt | Hge].
  - destruct (Nat.ltb_spec (String.length keyHex) 2); [reflexivity | lia].
  - destruct (Nat.ltb_spec (String.length keyHex) 2); [lia |].
    unfold Go.slice_to, Go.slice_from.
    rewrite !slice_in_bounds by (unfold Go.len; lia). simpl Go.obind.
    unfold Go.len.
    replace (Z.to_nat (Z.of_nat (String.length keyHex) - 2))
      with (String.length keyHex - 2)%nat by lia.
    reflexivity.
Qed.

Lemma keyToPath_default_is_subdirs_witness :
  keyToPath "sharded" [xab; xcd] = Go.Returns "ab/cd".
Proof.
  exact (keyToPath_default_is_subdirs "sharded" [xab; xcd]
           ltac:(discriminate) ltac:(discriminate)).
Defined.

(** C1 (the code departs from the claim). In [bazel] mode the one-byte
    key [0xab] does not give [ac/] and 64 hex digits: the padding slice
    is out of range and the call panics. *)
Theorem keyToPath_bazel_one_byte_key_panics :
  keyToPath "bazel" [xab] = Go.Panics "slice bounds out of range".
Proof. reflexivity. Qed.

End KeyToPathFacts.

(** ** The codec *)

Section CodecFacts.

Import Protocol.

Lemma byteToZ_byteOf (v : Z) : byteToZ (byteOf v) = Z.land v 255.
Proof.
  unfold byteToZ, byteOf.
  assert (Hr : 0 <= Z.land v 255 < 256).
  { change 255 with (Z.ones 8). rewrite Z.land_ones by lia.
    apply Z.mod_pos_bound. reflexivity. }
  destruct (Byte.of_N (Z.to_N (Z.land v 255))) as [b|] eqn:Hb.
  - apply Byte.to_of_N in Hb. rewrite Hb. lia.
  - apply Byte.of_N_None_iff in Hb. lia.
Qed.

Lemma byteToZ_byteOf_small (v : Z) : 0 <= v < 256 -> byteToZ (byteOf v) = v.
Proof.
  intros Hv. rewrite byteToZ_byteOf. change 255 with (Z.ones 8).
  rewrite Z.land_ones by lia. apply Z.mod_small. exact Hv.
Qed.

Lemma byte_length_back (n : nat) :
  (n <= 255)%nat -> N.to_nat (Byte.to_N (byteOf (Z.of_nat n))) = n.
Proof.
  intros Hn. pose proof (byteToZ_byteOf_small (Z.of_nat n)) as H.
  unfold byteToZ in H. lia.
Qed.

Lemma low_byte_and_rest (v : Z) :
  Z.lor (Z.land v 255) (Z.shiftl (Z.shiftr v 8) 8) = v.
Proof.
  apply Z.bits_inj'. intros i Hi.
  rewrite Z.lor_spec, Z.land_spec. change 255 with (Z.ones 8).
  destruct (Z.ltb_spec i 8) as [Hlow | Hhigh].
  - rewrite Z.ones_spec_low, Z.shiftl_spec_low by lia.
    now rewrite andb_true_r, orb_false_r.
  - rewrite Z.ones_spec_high, Z.shiftl_spec, Z.shiftr_spec by lia.
    rewrite andb_false_r. simpl. f_equal. lia.
Qed.

Lemma length_putLE (n : nat) : forall v, List.length (putLE n v) = n.
Proof. induction n as [|n IH]; intros v; simpl; [reflexivity | now rewrite IH]. Qed.

Lemma getLE_putLE (n : nat) : forall v,
  0 <= v < 2 ^ (8 * Z.of_nat n) -> getLE (putLE n v) = v.
Proof.
  induction n as [|n IH]; intros v Hv.
  - simpl in *. lia.
  - cbn [putLE getLE]. rewrite byteToZ_byteOf, IH; [apply low_byte_and_rest |].
    rewrite Z.shiftr_div_pow2 by lia. split.
    + apply Z.div_pos; lia.
    + apply Z.div_lt_upper_bound; [lia |].
      rewrite <- Z.pow_add_r by lia.
      replace (8 + 8 * Z.of_nat n) with (8 * Z.of_nat (S n)) by lia.
      apply Hv.
Qed.

(** Both byte orders decode what they encode. *)
Lemma Uint64_PutUint64 (order : ByteOrder) (v : Z) :
  0 <= v < 2 ^ 64 -> Uint64 order (PutUint64 order v) = v.
Proof.
  intros Hv. destruct order; unfold Uint64, PutUint64.
  - now apply (getLE_putLE 8).
  - rewrite rev_involutive. now apply (getLE_putLE 8).
Qed.

Lemma length_PutUint64 (order : ByteOrder) (v : Z) :
  List.length (PutUint64 order v) = 8%nat.
Proof.
  destruct order; unfold PutUint64; [| rewrite length_rev]; apply length_putLE.
Qed.

(** Reading exactly the bytes that are there. *)
Lemma ReadFull_exact (pre rest out : list byte) (r : option nat) (cl : bool) :
  ReadFull (List.length pre) (mkConn (pre ++ rest) out r cl)
    = (IO.Ok pre, mkConn rest out r cl).
Proof.
  unfold ReadFull. cbn [incoming outgoing room closed].
  destruct pre as [|b pre]; [reflexivity |].
  cbn [List.length Nat.eqb]. cbn [app].
  rewrite (proj2 (Nat.leb_le _ _)) by (cbn [List.length]; rewrite length_app; lia).
  change (b :: pre ++ rest)%list with ((b :: pre) ++ rest)%list.
  change (S (List.length pre)) with (List.length (b :: pre)).
  rewrite firstn_app, skipn_app, firstn_all, skipn_all, Nat.sub_diag.
  cbn [firstn skipn app]. now rewrite app_nil_r.
Qed.

Lemma readByte_cons (b : byte) (rest out : list byte) (r : option nat) (cl : bool) :
  readByte (mkConn (b :: rest) out r cl) = (IO.Ok b, mkConn rest out r cl).
Proof. reflexivity. Qed.

Lemma readByte_nil (out : list byte) (r : option nat) (cl : bool) :
  readByte (mkConn [] out r cl) = (IO.Fail EOF, mkConn [] out r cl).
Proof. reflexivity. Qed.

Lemma readKey_encoded (key rest out : list byte) (r : option nat) (cl : bool) :
  (List.length key <= 255)%nat ->
  readKey (mkConn (byteOf (Go.blen key) :: key ++ rest) out r cl)
    = (IO.Ok key, mkConn rest out r cl).
Proof.
  intros Hlen. unfold readKey, IO.bind. rewrite readByte_cons.
  unfold Go.blen. rewrite byte_length_back by exact Hlen.
  apply ReadFull_exact.
Qed.

Lemma readValue_encoded (order : ByteOrder) (value rest out : list byte)
  (r : option nat) (cl : bool) :
  Go.blen value <= maxInt ->
  readValue order (mkConn (PutUint64 order (Go.blen value) ++ value ++ rest) out r cl)
    = (IO.Ok value, mkConn rest out r cl).
Proof.
  intros Hlen. unfold readValue, IO.bind.
  rewrite <- (length_PutUint64 order (Go.blen value)) at 1.
  rewrite ReadFull_exact.
  assert (Hrange : 0 <= Go.blen value < 2 ^ 64)
    by (unfold Go.blen, maxInt in *; lia).
  rewrite Uint64_PutUint64 by exact Hrange.
  unfold makeBytes. rewrite (proj2 (Z.leb_le _ _) Hlen). cbn [IO.eval].
  unfold Go.blen. rewrite Nat2Z.id. apply ReadFull_exact.
Qed.

Lemma wire_writeValue (order : ByteOrder) (value : list byte) :
  wire (writeValue order value) = (PutUint64 order (Go.blen value) ++ value)%list.
Proof. reflexivity. Qed.

Lemma wire_writeKey (key : list byte) :
  wire (writeKey key) = byteOf (Go.blen key) :: key.
Proof. reflexivity. Qed.

Lemma wire_writeMsg (msg : string) :
  (String.length msg <= 255)%nat ->
  wire (writeMsg msg)
    = byteOf (Go.len msg) :: list_byte_of_string msg.
Proof.
  intros Hlen. unfold wire, writeMsg, IO.bind.
  destruct (Z.ltb_spec 255 (Go.len msg)) as [Hbig | _];
    [unfold Go.len in Hbig; lia | reflexivity].
Qed.

Lemma length_list_byte_of_string (msg : string) :
  List.length (list_byte_of_string msg) = String.length msg.
Proof.
  unfold list_byte_of_string. rewrite length_map.
  induction msg as [|c msg IH]; simpl; [reflexivity | now rewrite IH].
Qed.

(** C6. Decoding what the encoder wrote gives the value back, with the
    bytes that follow left in the stream: [readValue] after
    [writeValue] for a value of any length, [readKey] after the
    encoding of a key of 0 to 255 bytes, [readMsg] after [writeMsg] for
    a message of at most 255 bytes; in either byte order. *)
Theorem codec_round_trip (order : ByteOrder) (rest out : list byte)
  (r : option nat) (cl : bool) :
  (forall value : list byte, Go.blen value <= maxInt ->
     readValue order (mkConn (wire (writeValue order value) ++ rest) out r cl)
       = (IO.Ok value, mkConn rest out r cl)) /\
  (forall key : list byte, (List.length key <= 255)%nat ->
     readKey (mkConn (wire (writeKey key) ++ rest) out r cl)
       = (IO.Ok key, mkConn rest out r cl)) /\
  (forall msg : string, (String.length msg <= 255)%nat ->
     readMsg (mkConn (wire (writeMsg msg) ++ rest) out r cl)
       = (IO.Ok msg, mkConn rest out r cl)).
Proof.
  split; [| split].
  - intros value Hlen. rewrite wire_writeValue, <- app_assoc.
    now apply readValue_encoded.
  - intros key Hlen. rewrite wire_writeKey. cbn [app].
    now apply readKey_encoded.
  - intros msg Hlen. rewrite wire_writeMsg by exact Hlen. cbn [app].
    unfold readMsg, IO.bind. rewrite readByte_cons.
    unfold Go.len. rewrite byte_length_back by exact Hlen.
    rewrite <- length_list_byte_of_string, ReadFull_exact.
    unfold IO.ret. now rewrite string_of_list_byte_of_string.
Qed.

Lemma codec_round_trip_witness :
  readValue BigEndian (mkConn (wire (writeValue BigEndian []) ++ [x03]) [] None false)
    = (IO.Ok [], mkConn [x03] [] None false) /\
  readValue LittleEndian
    (mkConn (wire (writeValue LittleEndian [x01; x02; x03]) ++ [x03]) [] None false)
    = (IO.Ok [x01; x02; x03], mkConn [x03] [] None false) /\
  readKey (mkConn (wire (writeKey (repeat xab 255)) ++ [x03]) [] None false)
    = (IO.Ok (repeat xab 255), mkConn [x03] [] None false) /\
  readMsg (mkConn (wire (writeMsg "HTTP 500") ++ [x03]) [] None false)
    = (IO.Ok "HTTP 500", mkConn [x03] [] None false).
Proof.
  split; [| split; [| split]].
  - apply (proj1 (codec_round_trip BigEndian [x03] [] None false) []).
    vm_compute. discriminate.
  - apply (proj1 (codec_round_trip LittleEndian [x03] [] None false) [x01; x02; x03]).
    vm_compute. discriminate.
  - apply (proj1 (proj2 (codec_round_trip LittleEndian [x03] [] None false))
             (repeat xab 255)).
    rewrite repeat_length. lia.
  - apply (proj2 (proj2 (codec_round_trip LittleEndian [x03] [] None false))
             "HTTP 500").
    simpl. lia.
Defined.

End CodecFacts.

(** ** Unknown request types *)

Section UnknownRequest.

Import Protocol Server.

Lemma Write_fits (p : list byte) (c : Conn) :
  fits (room c) (List.length p) ->
  Write p c =
    (IO.Ok tt,
     mkConn (incoming c) (outgoing c ++ p) (spend (room c) (List.length p)) (closed c)).
Proof.
  unfold Write, fits, spend. destruct (room c) as [k|]; [| reflexivity].
  intros Hk. now rewrite (proj2 (Nat.leb_le _ _) Hk).
Qed.

Lemma fits_spend (r : option nat) (a b : nat) :
  fits r (a + b) -> fits r a /\ fits (spend r a) b.
Proof. destruct r as [k|]; simpl; [lia | tauto]. Qed.

Lemma spend_spend (r : option nat) (a b : nat) :
  spend (spend r a) b = spend r (a + b).
Proof. destruct r as [k|]; simpl; [f_equal; lia | reflexivity]. Qed.

Lemma length_unknownReply (b : byte) : List.length (unknownReply b) = 28%nat.
Proof. reflexivity. Qed.

Lemma writeErr_unknown (b : byte) (c : Conn) :
  fits (room c) 28 ->
  writeErr (unknownRequestType b) c =
    (IO.Ok tt,
     mkConn (incoming c) (outgoing c ++ unknownReply b) (spend (room c) 28) (closed c)).
Proof.
  intros Hfits.
  destruct (fits_spend (room c) 1 27 Hfits) as [H1 H27].
  destruct (fits_spend (spend (room c) 1) 1 26 H27) as [H2 H26].
  unfold writeErr, writeMsg, writeByte, IO.bind.
  rewrite Write_fits by exact H1.
  change (255 <? Go.len (unknownRequestType b)) with false.
  cbn [IO.eval]. cbn [incoming outgoing room closed].
  rewrite Write_fits by exact H2.
  cbn [incoming outgoing room closed].
  rewrite Write_fits by exact H26.
  cbn [incoming outgoing room closed].
  rewrite !spend_spend, <- !app_assoc. reflexivity.
Qed.

Section AnyStorage.

Context {T St : Type} `{storage T St}.
Variable order : ByteOrder.

Lemma processRequest_unknown (s : T) (st : St) (b : byte) (c : Conn) :
  b <> requestGet -> b <> requestPut -> b <> requestRemove -> b <> requestStop ->
  processRequest order s (mkConn (b :: incoming c) (outgoing c) (room c) (closed c), st)
    = (IO.onFst (writeErr (unknownRequestType b)) ;;; IO.ret false) (c, st).
Proof.
  intros Hg Hp Hr Hs. unfold processRequest at 1. unfold IO.bind at 1.
  assert (Hread : IO.onFst readRequest
                    (mkConn (b :: incoming c) (outgoing c) (room c) (closed c), st)
                  = (IO.Ok b, (c, st))) by now destruct c.
  rewrite Hread.
  destruct (Byte.eqb b requestGet) eqn:Eg; [now apply Byte.byte_dec_bl in Eg |].
  destruct (Byte.eqb b requestPut) eqn:Ep; [now apply Byte.byte_dec_bl in Ep |].
  destruct (Byte.eqb b requestRemove) eqn:Er; [now apply Byte.byte_dec_bl in Er |].
  destruct (Byte.eqb b requestStop) eqn:Es; [now apply Byte.byte_dec_bl in Es |].
  reflexivity.
Qed.

End AnyStorage.

Lemma processRequest_stop {T St : Type} `{storage T St} (order : ByteOrder) (s : T)
  (rest out : list byte) (r : option nat) (cl : bool) (st : St) :
  processRequest order s (mkConn (requestStop :: rest) out r cl, st)
    = (handleStop (St := St) ;;; IO.ret true) (mkConn rest out r cl, st).
Proof. reflexivity. Qed.

End UnknownRequest.

(** ** The storage client *)

Section StorageFacts.

Import Storage HTTP.

Lemma newlySent_app (c : Client) (f : list Request -> Request -> error + Response)
  (reqs : list Request) :
  newlySent c (mkClient f (Sent c ++ reqs)) = reqs.
Proof.
  unfold newlySent. cbn [Sent].
  rewrite skipn_app, skipn_all, Nat.sub_diag. reflexivity.
Qed.

Lemma Method_addHeaders (s : storageClient) (req : Request) :
  Method (addHeaders s req) = Method req.
Proof. unfold addHeaders. now destruct (String.eqb (bearerToken s) EmptyString). Qed.

(** [get], once the URL is built: one request, and the result read off
    the answer. *)
Lemma get_run (s : storageClient) (key : list byte) (c : Client) (urlStr : string) :
  buildURL s key = Go.Returns urlStr ->
  let req := addHeaders s (NewRequest GET urlStr []) in
  get s key c =
    (match RoundTrip c (Sent c) req with
     | inl e => IO.Fail e
     | inr resp =>
         if StatusCode resp =? StatusNotFound then IO.Ok ([], false)
         else if negb (StatusCode resp =? StatusOK) then
           IO.Fail (ErrHTTP (StatusCode resp))
         else
           match RespBodyErr resp with
           | None => IO.Ok (RespBody resp, true)
           | Some e => IO.Fail e
           end
     end,
     mkClient (RoundTrip c) (Sent c ++ [req])).
Proof.
  intros Hurl req. unfold get, IO.bind. rewrite Hurl. cbn [IO.eval].
  fold req. unfold Do.
  destruct (RoundTrip c (Sent c) req) as [e | resp]; [reflexivity |].
  destruct (StatusCode resp =? StatusNotFound); [reflexivity |].
  destruct (StatusCode resp =? StatusOK); cbn [negb]; [| reflexivity].
  unfold ReadAll. now destruct (RespBodyErr resp).
Qed.

(** C2, as the code has it. For a key whose path is computed, [get]
    maps the status 404 to not-found with a nil error, the status 200 to
    found with the whole body as the value (or to the error of the body
    read, when that fails), and every other status, the other 2xx
    statuses among them, to an error whose text is ["HTTP "] and the
    status code. *)
Theorem get_status_mapping (s : storageClient) (key : list byte) (c : Client)
  (urlStr : string) (resp : Response) :
  buildURL s key = Go.Returns urlStr ->
  RoundTrip c (Sent c) (addHeaders s (NewRequest GET urlStr [])) = inr resp ->
  fst (get s key c) =
    (if StatusCode resp =? 404 then IO.Ok ([], false)
     else if StatusCode resp =? 200 then
       match RespBodyErr resp with
       | None => IO.Ok (RespBody resp, true)
       | Some e => IO.Fail e
       end
     else IO.Fail (ErrHTTP (StatusCode resp))) /\
  Error (ErrHTTP (StatusCode resp)) = "HTTP " ++ Go.itoa (StatusCode resp).
Proof.
  intros Hurl Hresp. split; [| reflexivity].
  rewrite (get_run s key c urlStr Hurl). cbn [fst]. rewrite Hresp.
  unfold StatusNotFound, StatusOK.
  destruct (StatusCode resp =? 404); [reflexivity |].
  now destruct (StatusCode resp =? 200).
Qed.

Lemma get_status_mapping_witness :
  fst (get Sample.plain [xab; xcd] (Sample.always 200 [x68; x69]))
    = IO.Ok ([x68; x69], true) /\
  Error (ErrHTTP 200) = "HTTP 200".
Proof.
  exact (get_status_mapping Sample.plain [xab; xcd] (Sample.always 200 [x68; x69])
           "http://h/cache/ab/cd" (mkResponse 200 [x68; x69] None)
           eq_refl eq_refl).
Defined.

(** C2, as stated, fails: the status 204 is a 2xx status, and [get]
    answers it with the error ["HTTP 204"] instead of the body. *)
Lemma get_204_is_an_error :
  200 <= 204 < 300 /\
  fst (get Sample.plain [xab; xcd] (Sample.always 204 [x68; x69]))
    = IO.Fail (ErrHTTP 204) /\
  fst (get Sample.plain [xab; xcd] (Sample.always 204 [x68; x69]))
    <> IO.Ok ([x68; x69], true) /\
  Error (ErrHTTP 204) = "HTTP 204".
Proof.
  split; [lia |]. split; [reflexivity |]. split; [discriminate | reflexivity].
Qed.

Lemma exists_run (s : storageClient) (urlStr : string) (c : Client) :
  exists_ s urlStr c =
    (match RoundTrip c (Sent c) (headRequest s urlStr) with
     | inl e => IO.Fail e
     | inr resp => IO.Ok (StatusCode resp =? StatusOK)
     end,
     mkClient (RoundTrip c) (Sent c ++ [headRequest s urlStr])).
Proof.
  unfold exists_, IO.bind, Do. fold (headRequest s urlStr).
  now destruct (RoundTrip c (Sent c) (headRequest s urlStr)).
Qed.

Lemma putRequest_run (s : storageClient) (urlStr : string) (value : list byte)
  (c : Client) :
  putRequest s urlStr value c =
    (match RoundTrip c (Sent c) (putRequestSent s urlStr value) with
     | inl e => IO.Fail e
     | inr resp =>
         if (200 <=? StatusCode resp) && (StatusCode resp <? 300) then IO.Ok true
         else IO.Fail (ErrHTTP (StatusCode resp))
     end,
     mkClient (RoundTrip c) (Sent c ++ [putRequestSent s urlStr value])).
Proof.
  unfold putRequest, IO.bind, Do. fold (putRequestSent s urlStr value).
  destruct (RoundTrip c (Sent c) (putRequestSent s urlStr value)) as [e | resp];
    [reflexivity |].
  now destruct ((200 <=? StatusCode resp) && (StatusCode resp <? 300)).
Qed.

Lemma put_overwrite_run (s : storageClient) (key value : list byte) (c : Client)
  (urlStr : string) :
  buildURL s key = Go.Returns urlStr ->
  put s key value true c = putRequest s urlStr value c.
Proof. intros Hurl. unfold put, IO.bind. now rewrite Hurl. Qed.

Lemma put_checked_run (s : storageClient) (key value : list byte) (c : Client)
  (urlStr : string) :
  buildURL s key = Go.Returns urlStr ->
  let c1 := mkClient (RoundTrip c) (Sent c ++ [headRequest s urlStr]) in
  put s key value false c =
    match RoundTrip c (Sent c) (headRequest s urlStr) with
    | inl e => (IO.Fail e, c1)
    | inr resp =>
        if StatusCode resp =? StatusOK then (IO.Ok false, c1)
        else putRequest s urlStr value c1
    end.
Proof.
  intros Hurl c1. unfold put. unfold IO.bind at 1. rewrite Hurl.
  cbn [IO.eval negb]. unfold IO.bind. rewrite exists_run. fold c1.
  destruct (RoundTrip c (Sent c) (headRequest s urlStr)) as [e | resp];
    [reflexivity |].
  now destruct (StatusCode resp =? StatusOK).
Qed.

(** The requests of a [put]: the [HEAD] when there is a check, then
    the [PUT] unless the call returned before it. *)
Lemma put_requests (s : storageClient) (key value : list byte) (overwrite : bool)
  (c : Client) (urlStr : string) :
  buildURL s key = Go.Returns urlStr ->
  newlySent c (snd (put s key value overwrite c)) =
    if overwrite then [putRequestSent s urlStr value]
    else
      match RoundTrip c (Sent c) (headRequest s urlStr) with
      | inl _ => [headRequest s urlStr]
      | inr resp =>
          if StatusCode resp =? StatusOK then [headRequest s urlStr]
          else [headRequest s urlStr; putRequestSent s urlStr value]
      end.
Proof.
  intros Hurl. destruct overwrite.
  - rewrite (put_overwrite_run s key value c urlStr Hurl), putRequest_run.
    cbn [snd]. apply newlySent_app.
  - rewrite (put_checked_run s key value c urlStr Hurl).
    destruct (RoundTrip c (Sent c) (headRequest s urlStr)) as [e | resp].
    + cbn [snd]. apply newlySent_app.
    + destruct (StatusCode resp =? StatusOK).
      * cbn [snd]. apply newlySent_app.
      * rewrite putRequest_run. cbn [snd RoundTrip Sent].
        rewrite <- app_assoc. apply newlySent_app.
Qed.

(** For a key whose path is computed, a [put] with [overwrite] set
    sends exactly one request, the [PUT], whatever the backend holds or
    answers; and a [HEAD] request is among the requests of a [put] if
    and only if [overwrite] is not set. *)
Lemma put_overwrite_sends_only_the_put (s : storageClient) (key value : list byte)
  (c : Client) (urlStr : string) :
  buildURL s key = Go.Returns urlStr ->
  Sent (snd (put s key value true c)) = (Sent c ++ [putRequestSent s urlStr value])%list /\
  Method (putRequestSent s urlStr value) = PUT /\
  forall overwrite : bool,
    In HEAD (map Method (newlySent c (snd (put s key value overwrite c))))
    <-> overwrite = false.
Proof.
  intros Hurl. split; [| split].
  - rewrite (put_overwrite_run s key value c urlStr Hurl), putRequest_run.
    reflexivity.
  - unfold putRequestSent, setHeader. cbn [Method]. apply Method_addHeaders.
  - intros overwrite. rewrite (put_requests s key value overwrite c urlStr Hurl).
    assert (Hput : Method (putRequestSent s urlStr value) = PUT).
    { unfold putRequestSent, setHeader. cbn [Method]. apply Method_addHeaders. }
    assert (Hhead : Method (headRequest s urlStr) = HEAD)
      by apply Method_addHeaders.
    destruct overwrite.
    + cbn [map]. rewrite Hput. split; [| discriminate].
      intros [Habs | []]. discriminate.
    + split; [reflexivity |]. intros _.
      destruct (RoundTrip c (Sent c) (headRequest s urlStr)) as [e | resp];
        [| destruct (StatusCode resp =? StatusOK)];
        cbn [map]; rewrite Hhead; now left.
Qed.

Lemma put_overwrite_sends_only_the_put_witness :
  Sent (snd (put Sample.plain [xab; xcd] [x78] true (Sample.headThen 200 201)))
    = [putRequestSent Sample.plain "http://h/cache/ab/cd" [x78]] /\
  (In HEAD (map Method
              (newlySent (Sample.headThen 200 201)
                 (snd (put Sample.plain [xab; xcd] [x78] false
                         (Sample.headThen 200 201)))))
   <-> false = false).
Proof.
  destruct (put_overwrite_sends_only_the_put Sample.plain [xab; xcd] [x78]
              (Sample.headThen 200 201) "http://h/cache/ab/cd" eq_refl)
    as (Hsent & _ & Hhead).
  split; [exact Hsent | exact (Hhead false)].
Defined.

(** C9 (the code departs from the claim). In the bazel layout the
    one-byte key [0xab] has no path: [put] panics in [keyToPath] before
    it sends anything. With [overwrite] set it sends no request where
    the claim has exactly one, the [PUT]; without [overwrite] it sends
    no [HEAD], which the claim has for every key. *)
Theorem put_bazel_short_key_sends_nothing :
  buildURL Sample.bazel [xab] = Go.Panics "slice bounds out of range" /\
  put Sample.bazel [xab] [x78] true (Sample.always 200 [])
    = (IO.Crash "slice bounds out of range", Sample.always 200 []) /\
  newlySent (Sample.always 200 [])
    (snd (put Sample.bazel [xab] [x78] true (Sample.always 200 []))) = [] /\
  put Sample.bazel [xab] [x78] false (Sample.always 200 [])
    = (IO.Crash "slice bounds out of range", Sample.always 200 []) /\
  ~ In HEAD
      (map Method
         (newlySent (Sample.always 200 [])
            (snd (put Sample.bazel [xab] [x78] false (Sample.always 200 []))))).
Proof.
  assert (Hurl : buildURL Sample.bazel [xab] = Go.Panics "slice bounds out of range")
    by reflexivity.
  assert (Hput : forall overwrite : bool,
            put Sample.bazel [xab] [x78] overwrite (Sample.always 200 [])
              = (IO.Crash "slice bounds out of range", Sample.always 200 [])).
  { intros overwrite. unfold put, IO.bind. now rewrite Hurl. }
  split; [exact Hurl |]. split; [apply Hput |]. split; [now rewrite Hput |].
  split; [apply Hput |]. rewrite Hput. intros [].
Qed.

End StorageFacts.

(** ** Put requests, from the wire to the backend *)

Section PutDispatch.

Import Protocol Server.

Lemma onFst_run {S1 S2 A : Type} (m : IO.io S1 A) (s1 : S1) (s2 : S2) :
  IO.onFst m (s1, s2) = (fst (m s1), (snd (m s1), s2)).
Proof. unfold IO.onFst. now destruct (m s1). Qed.

Lemma onSnd_run {S1 S2 A : Type} (m : IO.io S2 A) (s1 : S1) (s2 : S2) :
  IO.onSnd m (s1, s2) = (fst (m s2), (s1, snd (m s2))).
Proof. unfold IO.onSnd. now destruct (m s2). Qed.

(** [handlePut] on a well-formed request: the fields are read, [put] is
    called once with the overwrite bit of the flags, and its result
    picks the response. *)
Lemma handlePut_dispatch {T St : Type} `{storage T St} (order : ByteOrder) (s : T)
  (key : list byte) (flags : byte) (value rest out : list byte)
  (r : option nat) (cl : bool) (st : St) :
  (List.length key <= 255)%nat -> Go.blen value <= maxInt ->
  let overwrite := negb (Z.land (byteToZ flags) putFlagOverwrite =? 0) in
  let c := mkConn rest out r cl in
  handlePut order s (mkConn (putFields order key flags value ++ rest) out r cl, st) =
    match put s key value overwrite st with
    | (IO.Ok stored, st') =>
        IO.onFst (if negb stored then writeNoop else writeOK) (c, st')
    | (IO.Fail err, st') => IO.onFst (writeErr (Error err)) (c, st')
    | (IO.Crash w, st') => (IO.Crash w, (c, st'))
    end.
Proof.
  intros Hkey Hvalue overwrite c.
  unfold putFields. rewrite wire_writeKey, wire_writeValue.
  cbn [app]. rewrite <- !app_assoc. cbn [app]. rewrite <- app_assoc.
  unfold handlePut. unfold IO.bind at 1.
  rewrite onFst_run, readKey_encoded by exact Hkey. cbn [fst snd].
  unfold IO.bind at 1. rewrite onFst_run, readByte_cons. cbn [fst snd].
  unfold IO.bind at 1.
  rewrite onFst_run, readValue_encoded by exact Hvalue. cbn [fst snd].
  fold overwrite. fold c. unfold IO.bind, IO.try. rewrite onSnd_run.
  destruct (put s key value overwrite st) as [[stored | err | w] st'];
    cbn [fst snd]; try reflexivity.
  now destruct stored.
Qed.

(** C3, as the code has it. For a key whose path is computed, a [put]
    without [overwrite] sends a [HEAD] request first. When the answer
    has the status 200 the call returns not-stored with a nil error and
    the [HEAD] is the only request sent, and the handler of a put
    request answers [Noop]. When the answer has any other status, the
    other 2xx statuses among them, the [PUT] is sent next. *)
Theorem put_without_overwrite_checks_first (s : Storage.storageClient)
  (key value : list byte) (c : HTTP.Client) (urlStr : string) (resp : HTTP.Response) :
  Storage.buildURL s key = Go.Returns urlStr ->
  HTTP.RoundTrip c (HTTP.Sent c) (headRequest s urlStr) = inr resp ->
  let c1 := HTTP.mkClient (HTTP.RoundTrip c) (HTTP.Sent c ++ [headRequest s urlStr]) in
  HTTP.Method (headRequest s urlStr) = HTTP.HEAD /\
  (exists later : list HTTP.Request,
     newlySent c (snd (Storage.put s key value false c))
       = headRequest s urlStr :: later) /\
  (HTTP.StatusCode resp = 200 ->
     Storage.put s key value false c = (IO.Ok false, c1) /\
     forall (order : ByteOrder) (flags : byte) (rest out : list byte)
            (r : option nat) (cl : bool),
       (List.length key <= 255)%nat -> Go.blen value <= maxInt ->
       Z.land (byteToZ flags) putFlagOverwrite = 0 -> fits r 1 ->
       processRequest order s
         (mkConn (requestPut :: putFields order key flags value ++ rest) out r cl, c)
       = (IO.Ok false, (mkConn rest (out ++ [responseNoop]) (spend r 1) cl, c1))) /\
  (HTTP.StatusCode resp <> 200 ->
     newlySent c (snd (Storage.put s key value false c))
       = [headRequest s urlStr; putRequestSent s urlStr value]).
Proof.
  intros Hurl Hresp c1.
  pose proof (put_requests s key value false c urlStr Hurl) as Hreqs.
  rewrite Hresp in Hreqs. unfold HTTP.StatusOK in Hreqs.
  split; [apply Method_addHeaders |]. split; [| split].
  - rewrite Hreqs. destruct (HTTP.StatusCode resp =? 200); eauto.
  - intros H200.
    assert (Hput : Storage.put s key value false c = (IO.Ok false, c1)).
    { rewrite (put_checked_run s key value c urlStr Hurl), Hresp.
      unfold HTTP.StatusOK. now rewrite H200. }
    split; [exact Hput |].
    intros order flags rest out r cl Hkey Hvalue Hflag Hfits.
    unfold processRequest. unfold IO.bind at 1.
    rewrite onFst_run. unfold readRequest. rewrite readByte_cons. cbn [fst snd].
    change (Byte.eqb requestPut requestGet) with false.
    change (Byte.eqb requestPut requestPut) with true. cbv iota.
    unfold IO.bind.
    rewrite (handlePut_dispatch order s key flags value rest out r cl c Hkey Hvalue).
    rewrite Hflag. cbn [Z.eqb negb].
    change (put s key value false c) with (Storage.put s key value false c).
    rewrite Hput. cbn [negb]. rewrite onFst_run.
    unfold writeNoop, writeByte.
    rewrite Write_fits by exact Hfits. reflexivity.
  - intros Hne. rewrite Hreqs.
    now rewrite (proj2 (Z.eqb_neq _ _) Hne).
Qed.

Lemma put_without_overwrite_checks_first_witness :
  Storage.put Sample.plain [xab; xcd] [x78] false (Sample.headThen 200 201)
    = (IO.Ok false,
       HTTP.mkClient (HTTP.RoundTrip (Sample.headThen 200 201))
         [headRequest Sample.plain "http://h/cache/ab/cd"]) /\
  processRequest LittleEndian Sample.plain
    (mkConn (requestPut :: putFields LittleEndian [xab; xcd] x00 [x78] ++ [requestStop])
       [] None false,
     Sample.headThen 200 201)
    = (IO.Ok false,
       (mkConn [requestStop] [responseNoop] None false,
        HTTP.mkClient (HTTP.RoundTrip (Sample.headThen 200 201))
          [headRequest Sample.plain "http://h/cache/ab/cd"])).
Proof.
  destruct (put_without_overwrite_checks_first Sample.plain [xab; xcd] [x78]
              (Sample.headThen 200 201) "http://h/cache/ab/cd"
              (HTTP.mkResponse 200 [] None) eq_refl eq_refl)
    as (_ & _ & Hexists & _).
  destruct (Hexists eq_refl) as [Hput Hnoop].
  split; [exact Hput |].
  refine (Hnoop LittleEndian x00 [requestStop] [] None false _ _ eq_refl I).
  - simpl. lia.
  - vm_compute. discriminate.
Defined.

(** C3, as stated, fails: the status 204 is a 2xx status, and after a
    [HEAD] answered with it the [PUT] is sent all the same and the entry
    is stored again. *)
Lemma put_after_head_204_writes :
  200 <= 204 < 300 /\
  fst (Storage.put Sample.plain [xab; xcd] [x78] false (Sample.headThen 204 201))
    = IO.Ok true /\
  map HTTP.Method
    (HTTP.Sent (snd (Storage.put Sample.plain [xab; xcd] [x78] false
                       (Sample.headThen 204 201))))
    = [HTTP.HEAD; HTTP.PUT] /\
  fst (processRequest LittleEndian Sample.plain
         (mkConn (requestPut :: putFields LittleEndian [xab; xcd] x00 [x78])
            [] None false,
          Sample.headThen 204 201))
    = IO.Ok false /\
  outgoing (fst (snd (processRequest LittleEndian Sample.plain
         (mkConn (requestPut :: putFields LittleEndian [xab; xcd] x00 [x78])
            [] None false,
          Sample.headThen 204 201))))
    = [responseOK].
Proof.
  split; [lia |]. repeat split; vm_compute; reflexivity.
Qed.

End PutDispatch.

(** ** Request headers *)

Section HeaderFacts.

Import Storage HTTP.

Lemma rangeHeaders_untouched (hs : list (string * string)) :
  forall (h : gmap string string) (name : string),
    (forall kv, In kv hs -> CanonicalMIMEHeaderKey (fst kv) <> name) ->
    rangeHeaders hs h !! name = h !! name.
Proof.
  unfold rangeHeaders.
  induction hs as [|[k v] hs IH]; intros h name Hfree; [reflexivity |].
  cbn [fold_left fst snd]. rewrite IH.
  - unfold Set_. apply lookup_insert_ne. apply (Hfree (k, v)). now left.
  - intros kv Hin. apply Hfree. now right.
Qed.

(** The pair that [range] visits last for a canonical name decides its
    value. *)
Lemma rangeHeaders_last (hs1 hs2 : list (string * string)) (k v : string) :
  forall h : gmap string string,
    (forall kv, In kv hs2 ->
       CanonicalMIMEHeaderKey (fst kv) <> CanonicalMIMEHeaderKey k) ->
    rangeHeaders (hs1 ++ (k, v) :: hs2) h !! CanonicalMIMEHeaderKey k = Some v.
Proof.
  intros h Hlast. unfold rangeHeaders. rewrite fold_left_app.
  cbn [fold_left fst snd].
  fold (rangeHeaders hs2
          (Set_ k v (fold_left (fun acc kv => Set_ (fst kv) (snd kv) acc) hs1 h))).
  rewrite rangeHeaders_untouched by exact Hlast.
  unfold Set_. apply lookup_insert_eq.
Qed.

Lemma Hdr_addHeaders (s : storageClient) (req : Request) :
  Hdr (addHeaders s req) =
    rangeHeaders (headers s)
      (if String.eqb (bearerToken s) EmptyString then Hdr req
       else Set_ "Authorization" ("Bearer " ++ bearerToken s) (Hdr req)).
Proof. unfold addHeaders. now destruct (String.eqb (bearerToken s) EmptyString). Qed.

Lemma get_requests (s : storageClient) (key : list byte) (c : Client) :
  Forall (outgoing_request s) (newlySent c (snd (get s key c))).
Proof.
  destruct (buildURL s key) as [urlStr | w] eqn:Hurl.
  - rewrite (get_run s key c urlStr Hurl). cbn [snd]. rewrite newlySent_app.
    repeat constructor.
  - unfold get, IO.bind. rewrite Hurl. cbn [IO.eval snd].
    unfold newlySent. rewrite skipn_all. constructor.
Qed.

Lemma remove_requests (s : storageClient) (key : list byte) (c : Client) :
  Forall (outgoing_request s) (newlySent c (snd (remove s key c))).
Proof.
  unfold remove, IO.bind.
  destruct (buildURL s key) as [urlStr | w]; cbn [IO.eval].
  - unfold Do.
    destruct (RoundTrip c (Sent c) (addHeaders s (NewRequest DELETE urlStr [])))
      as [e | resp].
    + cbn [snd]. rewrite newlySent_app. repeat constructor.
    + destruct (StatusCode resp =? StatusNotFound);
        [| destruct ((200 <=? StatusCode resp) && (StatusCode resp <? 300))];
        cbn [snd IO.ret IO.fail]; rewrite newlySent_app; repeat constructor.
  - cbn [snd]. unfold newlySent. rewrite skipn_all. constructor.
Qed.

Lemma put_requests_outgoing (s : storageClient) (key value : list byte)
  (overwrite : bool) (c : Client) :
  Forall (outgoing_request s) (newlySent c (snd (put s key value overwrite c))).
Proof.
  destruct (buildURL s key) as [urlStr | w] eqn:Hurl.
  - rewrite (put_requests s key value overwrite c urlStr Hurl).
    destruct overwrite; [repeat constructor |].
    destruct (RoundTrip c (Sent c) (headRequest s urlStr)) as [e | resp];
      [| destruct (StatusCode resp =? StatusOK)];
      unfold headRequest, putRequestSent; repeat constructor.
  - unfold put, IO.bind. rewrite Hurl. cbn [IO.eval snd].
    unfold newlySent. rewrite skipn_all. constructor.
Qed.

(** C4, as the code has it. Every request that [get], [put] and
    [remove] send went through [addHeaders]. It carries
    [Authorization: Bearer <token>] when a token is configured and no
    extra header has that name, and every extra header, where for one
    canonical name the pair visited last counts: the extra headers are
    applied after the token. On a [PUT] the adapter sets its own
    [Content-Type] after the extra headers: the request carries
    [application/octet-stream] whatever the extra headers say, and the
    other names as [addHeaders] left them. *)
Theorem outgoing_request_headers (s : storageClient) :
  (forall (key value : list byte) (overwrite : bool) (c : Client),
     Forall (outgoing_request s) (newlySent c (snd (get s key c))) /\
     Forall (outgoing_request s) (newlySent c (snd (put s key value overwrite c))) /\
     Forall (outgoing_request s) (newlySent c (snd (remove s key c)))) /\
  (forall req : Request, outgoing_request s req ->
     (bearerToken s <> EmptyString ->
      (forall kv, In kv (headers s) ->
         CanonicalMIMEHeaderKey (fst kv) <> "Authorization") ->
      Hdr req !! "Authorization" = Some ("Bearer " ++ bearerToken s)) /\
     (forall hs1 hs2 k v,
        headers s = (hs1 ++ (k, v) :: hs2)%list ->
        (forall kv, In kv hs2 ->
           CanonicalMIMEHeaderKey (fst kv) <> CanonicalMIMEHeaderKey k) ->
        (Method req = PUT -> CanonicalMIMEHeaderKey k <> "Content-Type") ->
        Hdr req !! CanonicalMIMEHeaderKey k = Some v) /\
     (Method req = PUT ->
      Hdr req !! "Content-Type" = Some "application/octet-stream")).
Proof.
  split.
  - intros key value overwrite c.
    split; [apply get_requests |].
    split; [apply put_requests_outgoing | apply remove_requests].
  - assert (Hauth : forall req0 : Request,
              Hdr req0 = ∅ -> bearerToken s <> EmptyString ->
              (forall kv, In kv (headers s) ->
                 CanonicalMIMEHeaderKey (fst kv) <> "Authorization") ->
              Hdr (addHeaders s req0) !! "Authorization"
                = Some ("Bearer " ++ bearerToken s)).
    { intros req0 _ Htok Hfree. rewrite Hdr_addHeaders.
      rewrite rangeHeaders_untouched by exact Hfree.
      rewrite (proj2 (String.eqb_neq _ _) Htok).
      unfold Set_. apply lookup_insert_eq. }
    assert (Hextra : forall (req0 : Request) hs1 hs2 k v,
              headers s = (hs1 ++ (k, v) :: hs2)%list ->
              (forall kv, In kv hs2 ->
                 CanonicalMIMEHeaderKey (fst kv) <> CanonicalMIMEHeaderKey k) ->
              Hdr (addHeaders s req0) !! CanonicalMIMEHeaderKey k = Some v).
    { intros req0 hs1 hs2 k v Hhs Hlast. rewrite Hdr_addHeaders, Hhs.
      now apply rangeHeaders_last. }
    intros req Hreq.
    destruct Hreq as [urlStr | urlStr | urlStr | urlStr value].
    1-3: (split; [now apply Hauth |]; split;
          [intros hs1 hs2 k v Hhs Hlast _; now apply (Hextra _ hs1 hs2) |];
          rewrite Method_addHeaders; discriminate).
    split; [| split].
    + intros Htok Hfree. unfold setHeader, Set_. cbn [Hdr].
      rewrite lookup_insert_ne by discriminate. now apply Hauth.
    + intros hs1 hs2 k v Hhs Hlast Hct. unfold setHeader, Set_. cbn [Hdr].
      rewrite lookup_insert_ne.
      * now apply (Hextra _ hs1 hs2).
      * intros Heq. apply Hct; [| now rewrite <- Heq].
        unfold setHeader. cbn [Method]. apply Method_addHeaders.
    + intros _. unfold setHeader, Set_. cbn [Hdr]. apply lookup_insert_eq.
Qed.

Lemma outgoing_request_headers_witness :
  Hdr (addHeaders Sample.typed (NewRequest GET "http://h/cache/ab/cd" []))
    !! "Authorization" = Some "Bearer secret" /\
  Hdr (addHeaders Sample.typed (NewRequest GET "http://h/cache/ab/cd" []))
    !! "Content-Type" = Some "text/plain" /\
  Hdr (putRequestSent Sample.typed "http://h/cache/ab/cd" [x78])
    !! "Content-Type" = Some "application/octet-stream".
Proof.
  destruct (outgoing_request_headers Sample.typed) as [_ Hcarries].
  destruct (Hcarries _ (sends_get Sample.typed "http://h/cache/ab/cd"))
    as (Hauth & Hextra & _).
  destruct (Hcarries _ (sends_put Sample.typed "http://h/cache/ab/cd" [x78]))
    as (_ & _ & Hput).
  split; [| split].
  - apply Hauth; [discriminate |].
    intros kv [<- | []]. vm_compute. discriminate.
  - apply (Hextra [] [] "content-type" "text/plain" eq_refl).
    + intros kv [].
    + rewrite Method_addHeaders. discriminate.
  - apply Hput. unfold setHeader. cbn [Method]. apply Method_addHeaders.
Defined.

(** C4, as stated, fails: with the extra header
    [content-type: text/plain] configured, the [PUT] request still
    carries the adapter's [application/octet-stream]. *)
Lemma put_content_type_is_not_overridden :
  In ("content-type", "text/plain") (headers Sample.typed) /\
  map (fun req => (Method req, Get "Content-Type" (Hdr req)))
    (Sent (snd (put Sample.typed [xab; xcd] [x78] true (Sample.always 201 []))))
    = [(PUT, Some "application/octet-stream")] /\
  Get "Content-Type"
    (Hdr (putRequestSent Sample.typed "http://h/cache/ab/cd" [x78]))
    <> Some "text/plain".
Proof.
  split; [now left |]. split; [vm_compute; reflexivity |].
  vm_compute. discriminate.
Qed.

End HeaderFacts.

(** ** The idle timer *)

Section IdleTimerFacts.

Import Server.

Lemma resetIdleTimer_disabled (s : ipcServer) :
  IdleTimeout s = 0 -> resetIdleTimer s = s.
Proof. intros Hzero. unfold resetIdleTimer. now rewrite Hzero. Qed.

Lemma timerless_step (s s' : ipcServer) (ev : event) :
  timerless s -> step s ev s' ->
  timerless s' /\
  (forall t, ev <> TimerFired t) /\
  (ctxDone s' = true -> ctxDone s = true \/ ev = StopRequested \/ ev = Cancelled).
Proof.
  intros (Hzero & Hnone & Harmed & Hmade) Hstep.
  destruct Hstep as [s | s | s | s t Hin | s].
  - rewrite (resetIdleTimer_disabled s Hzero).
    repeat split; auto; discriminate.
  - rewrite (resetIdleTimer_disabled s Hzero).
    repeat split; auto; discriminate.
  - repeat split; auto; discriminate.
  - rewrite Harmed in Hin. destruct Hin.
  - repeat split; auto; discriminate.
Qed.

Lemma timerless_run (s s' : ipcServer) (evs : list event) :
  timerless s -> run s evs s' ->
  timerless s' /\
  (forall t, ~ In (TimerFired t) evs) /\
  (ctxDone s' = true ->
   ctxDone s = true \/ In StopRequested evs \/ In Cancelled evs).
Proof.
  intros Hs Hrun. induction Hrun as [s | s evs s' ev s'' Hrun IH Hstep].
  - split; [exact Hs |]. split; [intros t [] | auto].
  - destruct (IH Hs) as (Hs' & Hnofire & Hdone).
    destruct (timerless_step s' s'' ev Hs' Hstep) as (Hs'' & Hev & Hdone').
    split; [exact Hs'' |]. split.
    + intros t Hin. apply in_app_or in Hin as [Hin | [Hin | []]].
      * exact (Hnofire t Hin).
      * exact (Hev t Hin).
    + intros Hd. destruct (Hdone' Hd) as [Hbefore | [-> | ->]].
      * destruct (Hdone Hbefore) as [? | [? | ?]]; auto using in_or_app.
      * right. left. apply in_or_app. right. now left.
      * right. right. apply in_or_app. right. now left.
Qed.

(** C7. With an idle timeout of zero [resetIdleTimer] returns the
    server as it was. From start-up on, whatever happens, no timer is
    ever made or armed and none fires, and the context is cancelled only
    by a stop request or by a cancellation from outside; both of these
    do cancel it. *)
Theorem idle_timer_never_exists_when_disabled (sc : Storage.storageClient) :
  (forall s : ipcServer, IdleTimeout s = 0 -> resetIdleTimer s = s) /\
  (forall (evs : list event) (s : ipcServer),
     run (started 0 sc) evs s ->
     idleTimer s = None /\ armed s = [] /\ timersMade s = 0%nat /\
     (forall t, ~ In (TimerFired t) evs) /\
     (ctxDone s = true -> In StopRequested evs \/ In Cancelled evs)) /\
  (forall (s s' : ipcServer) (ev : event),
     step s ev s' -> ev = StopRequested \/ ev = Cancelled -> ctxDone s' = true).
Proof.
  split; [exact resetIdleTimer_disabled |]. split.
  - intros evs s Hrun.
    assert (Hstart : timerless (started 0 sc)) by (repeat split).
    destruct (timerless_run _ _ _ Hstart Hrun)
      as ((_ & Hnone & Harmed & Hmade) & Hnofire & Hdone).
    repeat split; auto.
    intros Hd. destruct (Hdone Hd) as [Habs | Hev]; [discriminate | exact Hev].
  - intros s s' ev Hstep [-> | ->]; inversion Hstep; reflexivity.
Qed.

Lemma idle_timer_never_exists_when_disabled_witness :
  resetIdleTimer (newServer 0 Sample.plain) = newServer 0 Sample.plain /\
  idleTimer (cancel (started 0 Sample.plain)) = None /\
  timersMade (cancel (started 0 Sample.plain)) = 0%nat.
Proof.
  destruct (idle_timer_never_exists_when_disabled Sample.plain) as (Hreset & Hrun & _).
  split; [exact (Hreset (newServer 0 Sample.plain) eq_refl) |].
  assert (Hr : run (started 0 Sample.plain) ([Accepted; Processed] ++ [StopRequested])
                 (cancel (started 0 Sample.plain))).
  { eapply run_snoc; [| apply step_stop].
    apply (run_snoc _ [Accepted] (started 0 Sample.plain) Processed);
      [| apply (step_processed (started 0 Sample.plain))].
    apply (run_snoc _ [] (started 0 Sample.plain) Accepted);
      [apply run_nil | apply (step_accept (started 0 Sample.plain))]. }
  destruct (Hrun _ _ Hr) as (Hnone & _ & Hmade & _).
  split; [exact Hnone | exact Hmade].
Defined.

(** With a timeout that is not zero, every reset arms a new timer. *)
Example resetIdleTimer_enabled :
  armed (resetIdleTimer (resetIdleTimer (newServer 5000000000 Sample.plain)))
    = [mkTimer 1 5000000000] /\
  timersMade (resetIdleTimer (resetIdleTimer (newServer 5000000000 Sample.plain)))
    = 2%nat.
Proof. split; reflexivity. Qed.

End IdleTimerFacts.

(** ** Short keys in the bazel layout *)

Section BazelShortKeys.

Import Protocol Server.

(** C8 (the code departs from the claim). [keyToPath] is not total in
    [bazel] mode: for the empty key and for a key of 15 bytes the
    padding slice [keyHex[:64-len(keyHex)]] asks for more than [keyHex]
    has, and the call panics. A client reaches this with a plain get
    request for a one-byte key: the handler of the connection
    panics. *)
Theorem keyToPath_bazel_padding_out_of_bounds :
  Storage.keyToPath "bazel" [] = Go.Panics "slice bounds out of range" /\
  Storage.keyToPath "bazel" (repeat xab 15) = Go.Panics "slice bounds out of range" /\
  Storage.sha256HexSize - Go.len (Hex.EncodeToString (repeat xab 15))
    > Go.len (Hex.EncodeToString (repeat xab 15)) /\
  option_map (fun r => fst (fst r))
    (handleConnection LittleEndian (started 0 Sample.bazel)
       (mkConn [requestGet; x01; xab] [] None false, Sample.always 200 []))
    = Some (Panicked "slice bounds out of range").
Proof. repeat split. Qed.

End BazelShortKeys.

(** ** Every connection handler returns *)

Section HandlerReturns.

Import Protocol Server.

Lemma quiet_ret {A : Type} (a : A) : quiet (IO.ret a).
Proof. intros c. reflexivity. Qed.

Lemma quiet_eval {A : Type} (x : Go.outcome A) : quiet (IO.eval x).
Proof. intros c. destruct x; reflexivity. Qed.

Lemma quiet_bind {A B : Type} (m : IO.io Conn A) (k : A -> IO.io Conn B) :
  quiet m -> (forall a, quiet (k a)) -> quiet (IO.bind m k).
Proof.
  intros Hm Hk c. unfold IO.bind. specialize (Hm c).
  destruct (m c) as [[a | e | w] c']; cbn [snd] in *; [| exact Hm | exact Hm].
  specialize (Hk a c'). lia.
Qed.

Lemma quiet_Write (p : list byte) : quiet (Write p).
Proof.
  intros c. unfold Write. destruct (room c) as [k|]; [| reflexivity].
  destruct (List.length p <=? k)%nat; reflexivity.
Qed.

Lemma quiet_ReadFull (n : nat) : quiet (ReadFull n).
Proof.
  intros c. unfold ReadFull. destruct (n =? 0)%nat; [reflexivity |].
  destruct (incoming c) as [|b l] eqn:Hin; [cbn [snd]; rewrite Hin; reflexivity |].
  destruct (n <=? List.length (b :: l))%nat; cbn [snd incoming].
  - rewrite length_skipn. lia.
  - cbn [List.length]. lia.
Qed.

Create HintDb quiet.
#[local] Hint Resolve quiet_ret quiet_eval quiet_Write quiet_ReadFull : quiet.

Ltac quiet_steps :=
  repeat (first [ apply quiet_bind; [| intros ? ] | solve [auto with quiet] ]).

Lemma quiet_readByte : quiet readByte.
Proof. unfold readByte. quiet_steps. Qed.

Lemma quiet_writeByte (b : byte) : quiet (writeByte b).
Proof. apply quiet_Write. Qed.

#[local] Hint Resolve quiet_readByte quiet_writeByte : quiet.

Lemma quiet_readKey : quiet readKey.
Proof. unfold readKey. quiet_steps. Qed.

Lemma quiet_readValue (order : ByteOrder) : quiet (readValue order).
Proof. unfold readValue. quiet_steps. Qed.

Lemma quiet_writeValue (order : ByteOrder) (value : list byte) :
  quiet (writeValue order value).
Proof. unfold writeValue. quiet_steps. Qed.

Lemma quiet_writeErr (msg : string) : quiet (writeErr msg).
Proof. unfold writeErr, writeMsg. quiet_steps. Qed.

#[local] Hint Resolve quiet_readKey quiet_readValue quiet_writeValue quiet_writeErr
  : quiet.

Lemma quiet2_ret {St A : Type} (a : A) : quiet2 (St := St) (IO.ret a).
Proof. intros st. reflexivity. Qed.

Lemma quiet2_bind {St A B : Type} (m : IO.io (Conn * St) A)
  (k : A -> IO.io (Conn * St) B) :
  quiet2 m -> (forall a, quiet2 (k a)) -> quiet2 (IO.bind m k).
Proof.
  intros Hm Hk st. unfold IO.bind. specialize (Hm st).
  destruct (m st) as [[a | e | w] st']; cbn [snd] in *; [| exact Hm | exact Hm].
  specialize (Hk a st'). lia.
Qed.

Lemma quiet2_onFst {St A : Type} (m : IO.io Conn A) :
  quiet m -> quiet2 (St := St) (IO.onFst m).
Proof. intros Hm [c st]. rewrite onFst_run. apply Hm. Qed.

Lemma quiet2_try_onSnd {St A : Type} (m : IO.io St A) :
  quiet2 (IO.try (IO.onSnd (S1 := Conn) m)).
Proof.
  intros [c st]. unfold IO.try. rewrite onSnd_run.
  destruct (m st) as [[a | e | w] st']; reflexivity.
Qed.

Ltac quiet2_steps :=
  repeat (first [ apply quiet2_bind; [| intros ? ]
                | apply quiet2_try_onSnd
                | apply quiet2_ret
                | apply quiet2_onFst; solve [auto with quiet]
                | match goal with
                  | |- quiet2 (match ?x with _ => _ end) => destruct x
                  | |- quiet2 (if ?b then _ else _) => destruct b
                  end ]).

Section AnyStorage.

Context {T St : Type} `{storage T St}.
Variable order : ByteOrder.

Lemma quiet2_handleGet (s : T) : quiet2 (handleGet order s).
Proof. unfold handleGet, writeOK, writeNoop. quiet2_steps. Qed.

Lemma quiet2_handlePut (s : T) : quiet2 (handlePut order s).
Proof. unfold handlePut, writeOK, writeNoop. quiet2_steps. Qed.

Lemma quiet2_handleRemove (s : T) : quiet2 (handleRemove s).
Proof. unfold handleRemove, writeOK, writeNoop. quiet2_steps. Qed.

Lemma quiet2_handleStop : quiet2 (St := St) handleStop.
Proof. unfold handleStop, writeOK. quiet2_steps. Qed.

Lemma readRequest_consumes (st : Conn * St) (reqType : byte) :
  fst (IO.onFst readRequest st) = IO.Ok reqType ->
  (List.length (incoming (fst (snd (IO.onFst readRequest st))))
   < List.length (incoming (fst st)))%nat.
Proof.
  destruct st as [[inc out r cl] st]. rewrite onFst_run. unfold readRequest.
  destruct inc as [|b rest]; [rewrite readByte_nil; discriminate |].
  rewrite readByte_cons. cbn [fst snd incoming List.length]. lia.
Qed.

(** A call of [processRequest] that returns a nil error has taken at
    least the type byte off the stream. *)
Lemma processRequest_consumes (s : T) (st : Conn * St) (stop : bool) :
  fst (processRequest order s st) = IO.Ok stop ->
  (List.length (incoming (fst (snd (processRequest order s st))))
   < List.length (incoming (fst st)))%nat.
Proof.
  unfold processRequest.
  set (dispatch := fun reqType : byte => _).
  assert (Hdispatch : forall reqType, quiet2 (dispatch reqType)).
  { intros reqType. unfold dispatch.
    repeat match goal with
           | |- quiet2 (if ?t then _ else _) => destruct t
           end;
      (apply quiet2_bind;
       [first [ apply quiet2_handleGet | apply quiet2_handlePut
              | apply quiet2_handleRemove | apply quiet2_handleStop
              | apply quiet2_onFst; auto with quiet ]
       | intros ?; apply quiet2_ret ]). }
  pose proof (readRequest_consumes st) as Hread.
  unfold IO.bind.
  destruct (IO.onFst readRequest st) as [[reqType | e | w] st'];
    [| discriminate | discriminate].
  intros _. specialize (Hread reqType eq_refl). cbn [snd] in Hread.
  specialize (Hdispatch reqType st'). lia.
Qed.

End AnyStorage.

Lemma requestLoop_returns (order : ByteOrder) (fuel : nat) :
  forall (s : ipcServer) (st : Conn * HTTP.Client),
    (List.length (incoming (fst st)) < fuel)%nat ->
    requestLoop order fuel s st <> None.
Proof.
  induction fuel as [|fuel IH]; intros s st Hfuel; [lia |].
  cbn [requestLoop].
  pose proof (processRequest_consumes order (storage_ s) st) as Hless.
  destruct (processRequest order (storage_ s) st) as [[[|] | e | w] [c h]];
    try discriminate.
  apply IH. specialize (Hless false eq_refl). cbn [snd] in Hless. lia.
Qed.

(** [handleConnection] always comes to an end: the fuel it gives to its
    loop is enough for every connection. *)
Lemma handleConnection_returns (order : ByteOrder) (s : ipcServer)
  (st : Conn * HTTP.Client) :
  handleConnection order s st <> None.
Proof.
  unfold handleConnection.
  destruct (IO.onFst writeGreeting st) as [[u | e | w] [c h]]; try discriminate.
  apply requestLoop_returns. cbn [fst]. lia.
Qed.

End HandlerReturns.

(** ** Unknown request types: the connection goes on *)

Section UnknownRequestGoesOn.

Import Protocol Server.

Lemma hexValue_encodeByte (b : byte) :
  hexValue (Hex.digit (N.shiftr (Byte.to_N b) 4)) = Some (Byte.to_N b / 16)%N /\
  hexValue (Hex.digit (N.land (Byte.to_N b) 15)) = Some (Byte.to_N b mod 16)%N.
Proof. destruct b; split; reflexivity. Qed.

Lemma storage_resetIdleTimer (s : ipcServer) :
  storage_ (resetIdleTimer s) = storage_ s.
Proof. unfold resetIdleTimer. now destruct (IdleTimeout s =? 0). Qed.

Lemma requestLoop_stop (order : ByteOrder) (srv : ipcServer) (h : HTTP.Client)
  (rest out : list byte) (r : option nat) (cl : bool) (fuel : nat) :
  fits r 1 ->
  requestLoop order (S fuel) srv (mkConn (requestStop :: rest) out r cl, h)
    = Some (Returned, cancel srv,
            (mkConn rest (out ++ [responseOK]) (spend r 1) true, h)).
Proof.
  intros Hfits. cbn [requestLoop]. rewrite processRequest_stop.
  unfold IO.bind, handleStop. rewrite onFst_run.
  unfold writeOK, writeByte. rewrite Write_fits by exact Hfits. reflexivity.
Qed.

(** C5. A request whose type byte [b] is none of [0x00] to [0x03] is
    answered with an [Err] response whose message is
    ["unknown request type: 0x"] and two lower-case hex digits, the
    first of value [b / 16] and the second of value [b mod 16];
    [processRequest] never reports a stop request for it and leaves the
    storage alone; and [handleConnection] comes to a result on the input
    that starts with it. When the response can be written the call
    returns a nil error and the connection stays open:
    [handleConnection] resets the idle timer and its next iteration
    reads the next request from the rest of the same input, with the
    same storage, and ends or goes on as that request has it; a stop
    request that follows is answered [Ok] after the [Err] response. *)
Theorem unknown_request_type_keeps_connection (order : ByteOrder)
  (srv : ipcServer) (h : HTTP.Client) (b : byte) (rest out : list byte)
  (r : option nat) (cl : bool) :
  b <> requestGet -> b <> requestPut -> b <> requestRemove -> b <> requestStop ->
  let c0 := mkConn (b :: rest) out r cl in
  let c1 := mkConn rest (out ++ unknownReply b) (spend r 28) cl in
  (exists hi lo : ascii,
     unknownRequestType b
       = "unknown request type: 0x" ++ String hi (String lo EmptyString) /\
     hexValue hi = Some (Byte.to_N b / 16)%N /\
     hexValue lo = Some (Byte.to_N b mod 16)%N) /\
  unknownReply b = responseErr :: x1a :: list_byte_of_string (unknownRequestType b) /\
  fst (processRequest order (storage_ srv) (c0, h)) <> IO.Ok true /\
  snd (snd (processRequest order (storage_ srv) (c0, h))) = h /\
  (forall fuel : nat, (List.length rest < fuel)%nat ->
     requestLoop order (S fuel) srv (c0, h) <> None) /\
  (fits r 28 ->
     processRequest order (storage_ srv) (c0, h) = (IO.Ok false, (c1, h)) /\
     (forall fuel : nat,
        requestLoop order (S fuel) srv (c0, h)
          = requestLoop order fuel (resetIdleTimer srv) (c1, h)) /\
     (forall fuel : nat,
        requestLoop order (S (S fuel)) srv (c0, h)
          = match processRequest order (storage_ srv) (c1, h) with
            | (IO.Fail _, (c, h')) =>
                Some (Returned, resetIdleTimer srv, (closeConn c, h'))
            | (IO.Crash w, (c, h')) =>
                Some (Panicked w, resetIdleTimer srv, (closeConn c, h'))
            | (IO.Ok true, (c, h')) =>
                Some (Returned, cancel (resetIdleTimer srv), (closeConn c, h'))
            | (IO.Ok false, st') =>
                requestLoop order fuel (resetIdleTimer (resetIdleTimer srv)) st'
            end) /\
     (forall (rest' : list byte) (fuel : nat),
        rest = requestStop :: rest' -> fits r 29 ->
        requestLoop order (S (S fuel)) srv (c0, h)
          = Some (Returned, cancel (resetIdleTimer srv),
                  (mkConn rest' (out ++ unknownReply b ++ [responseOK])
                     (spend r 29) true, h)))).
Proof.
  intros Hg Hp Hr Hs c0 c1.
  pose proof (processRequest_unknown order (storage_ srv) h b
                (mkConn rest out r cl) Hg Hp Hr Hs) as Hpr.
  cbn [incoming outgoing room closed] in Hpr. fold c0 in Hpr.
  split; [| split; [reflexivity |]; split; [| split; [| split]]].
  - exists (Hex.digit (N.shiftr (Byte.to_N b) 4)), (Hex.digit (N.land (Byte.to_N b) 15)).
    split; [reflexivity | apply hexValue_encodeByte].
  - rewrite Hpr. unfold IO.bind, IO.onFst.
    destruct (writeErr (unknownRequestType b) (mkConn rest out r cl))
      as [[u | e | w] c']; cbn; discriminate.
  - rewrite Hpr. unfold IO.bind, IO.onFst.
    destruct (writeErr (unknownRequestType b) (mkConn rest out r cl))
      as [[u | e | w] c']; reflexivity.
  - intros fuel Hfuel. apply requestLoop_returns.
    unfold c0. cbn [fst incoming List.length]. lia.
  - intros Hfits.
    assert (Hok : processRequest order (storage_ srv) (c0, h) = (IO.Ok false, (c1, h))).
    { rewrite Hpr. unfold IO.bind, IO.onFst.
      now rewrite (writeErr_unknown b (mkConn rest out r cl) Hfits). }
    assert (Hloop : forall fuel : nat,
              requestLoop order (S fuel) srv (c0, h)
                = requestLoop order fuel (resetIdleTimer srv) (c1, h)).
    { intros fuel. cbn [requestLoop]. now rewrite Hok. }
    split; [exact Hok |]. split; [exact Hloop |]. split.
    + intros fuel. rewrite Hloop. cbn [requestLoop].
      rewrite storage_resetIdleTimer.
      destruct (processRequest order (storage_ srv) (c1, h))
        as [[[|] | e | w] [c h']]; reflexivity.
    + intros rest' fuel -> Hfits29. rewrite Hloop. unfold c1.
      destruct (fits_spend r 28 1 Hfits29) as [_ Hone].
      rewrite requestLoop_stop by exact Hone.
      now rewrite spend_spend, <- app_assoc.
Qed.

Lemma unknown_request_type_keeps_connection_witness :
  processRequest LittleEndian (storage_ Sample.server)
    (mkConn [xff; requestStop] [] (Some 29%nat) false, Sample.unreachable)
    = (IO.Ok false,
       (mkConn [requestStop]
          (responseErr :: x1a :: list_byte_of_string "unknown request type: 0xff")
          (Some 1%nat) false,
        Sample.unreachable)) /\
  requestLoop LittleEndian 2 Sample.server
    (mkConn [xff; requestStop] [] (Some 29%nat) false, Sample.unreachable)
    = Some (Returned, cancel (resetIdleTimer Sample.server),
            (mkConn []
               (responseErr :: x1a
                  :: list_byte_of_string "unknown request type: 0xff"
                  ++ [responseOK])%list
               (Some 0%nat) true,
             Sample.unreachable)).
Proof.
  destruct (unknown_request_type_keeps_connection LittleEndian Sample.server
              Sample.unreachable xff [requestStop] [] (Some 29%nat) false
              ltac:(discriminate) ltac:(discriminate) ltac:(discriminate)
              ltac:(discriminate)) as (_ & _ & _ & _ & _ & Hgoes).
  destruct (Hgoes ltac:(simpl; lia)) as (Hok & _ & _ & Hstop).
  split; [exact Hok | exact (Hstop [] 0%nat eq_refl ltac:(simpl; lia))].
Defined.

(** The bytes on the wire for [0xff] followed by a stop request: the
    greeting, the [Err] response with its message, then [Ok] for the
    stop request. *)
Example unknown_then_stop :
  handleConnection LittleEndian Sample.server
    (mkConn [xff; requestStop] [] None false, Sample.unreachable)
  = Some (Returned, cancel Sample.server,
          (mkConn []
             ([protocolVersion; x01; cap0]
                ++ responseErr :: x1a
                     :: list_byte_of_string "unknown request type: 0xff"
                ++ [responseOK])%list
             None true,
           Sample.unreachable)) /\
  unknownRequestType xff = "unknown request type: 0xff" /\
  unknownRequestType x04 = "unknown request type: 0x04" /\
  unknownRequestType x1a = "unknown request type: 0x1a".
Proof. repeat split. Qed.

End UnknownRequestGoesOn.

(** ** Messages longer than a length byte can tell *)

Section MessageFacts.

Import Protocol.

Lemma substring_0_all (s : string) : forall n : nat,
  (String.length s <= n)%nat -> substring 0 n s = s.
Proof.
  induction s as [|c s IH]; intros n Hn; [now destruct n |].
  destruct n as [|n]; simpl in *; [lia |]. now rewrite IH by lia.
Qed.

Lemma length_substring_0 (s : string) : forall n : nat,
  String.length (substring 0 n s) = Nat.min n (String.length s).
Proof.
  induction s as [|c s IH]; intros n; [now destruct n |].
  destruct n as [|n]; simpl; [reflexivity | now rewrite IH].
Qed.

(** What [writeMsg] puts on the wire: the message cut to 255 bytes behind
    its length. *)
Lemma wire_writeMsg_any (msg : string) :
  wire (writeMsg msg)
    = byteOf (Z.of_nat (Nat.min 255 (String.length msg)))
        :: list_byte_of_string (substring 0 255 msg).
Proof.
  unfold wire, writeMsg, IO.bind.
  destruct (Z.ltb_spec 255 (Go.len msg)) as [Hbig | Hsmall].
  - unfold Go.slice_to. rewrite slice_in_bounds by lia.
    cbn [IO.eval]. change (Z.to_nat 0) with 0%nat.
    change (Z.to_nat (255 - 0)) with 255%nat.
    unfold Go.len. rewrite length_substring_0. reflexivity.
  - cbn [IO.eval]. unfold Go.len in *.
    rewrite substring_0_all by lia.
    now rewrite Nat.min_r by lia.
Qed.

(** X1. [writeMsg] never fails on a long message: it sends the first 255
    bytes, and [readMsg] gives exactly these back, with the bytes that
    follow left in the stream. A message of at most 255 bytes comes back
    whole. *)
Theorem writeMsg_truncates_to_255 (msg : string) (rest out : list byte)
  (r : option nat) (cl : bool) :
  readMsg (mkConn (wire (writeMsg msg) ++ rest) out r cl)
    = (IO.Ok (substring 0 255 msg), mkConn rest out r cl) /\
  (List.length (wire (writeMsg msg)) <= 256)%nat /\
  ((String.length msg <= 255)%nat -> substring 0 255 msg = msg).
Proof.
  rewrite wire_writeMsg_any.
  assert (Hlen : String.length (substring 0 255 msg)
                 = Nat.min 255 (String.length msg)) by apply length_substring_0.
  split; [| split].
  - cbn [app]. unfold readMsg, IO.bind. rewrite readByte_cons.
    rewrite byte_length_back by lia.
    rewrite <- Hlen, <- length_list_byte_of_string, ReadFull_exact.
    unfold IO.ret. now rewrite string_of_list_byte_of_string.
  - cbn [List.length]. rewrite length_list_byte_of_string, Hlen. lia.
  - apply substring_0_all.
Qed.

Lemma writeMsg_truncates_to_255_witness :
  substring 0 255 "HTTP 503" = "HTTP 503".
Proof.
  apply (proj2 (proj2 (writeMsg_truncates_to_255 "HTTP 503" [] [] None false))).
  simpl. lia.
Defined.

End MessageFacts.

(** ** From a request on the wire to its response *)

Section DispatchFacts.

Import Protocol Server.

Lemma writeErr_open (msg : string) (inc out : list byte) (cl : bool) :
  writeErr msg (mkConn inc out None cl)
    = (IO.Ok tt, mkConn inc (out ++ errReply msg) None cl).
Proof.
  unfold errReply, wire, writeErr, writeMsg, writeByte, IO.bind.
  cbn [Write room incoming outgoing closed].
  destruct (255 <? Go.len msg) eqn:Hbig.
  - apply Z.ltb_lt in Hbig.
    unfold Go.slice_to. rewrite slice_in_bounds by lia.
    cbn [IO.eval Write room incoming outgoing closed snd app].
    now rewrite <- !app_assoc.
  - cbn [IO.eval Write room incoming outgoing closed snd app].
    now rewrite <- !app_assoc.
Qed.

Lemma writeValue_open (order : ByteOrder) (value inc out : list byte) (cl : bool) :
  writeValue order value (mkConn inc out None cl)
    = (IO.Ok tt, mkConn inc (out ++ wire (writeValue order value)) None cl).
Proof.
  unfold wire, writeValue, IO.bind.
  cbn [Write room incoming outgoing closed snd app].
  now rewrite <- app_assoc.
Qed.

Lemma overwrite_bit (flags : byte) :
  negb (Z.land (byteToZ flags) putFlagOverwrite =? 0) = Z.odd (byteToZ flags).
Proof.
  unfold putFlagOverwrite. change 1 with (Z.ones 1).
  rewrite Z.land_ones by lia. change (2 ^ 1) with 2.
  rewrite Zmod_odd. now destruct (Z.odd (byteToZ flags)).
Qed.

Section AnyStorage.

Context {T St : Type} `{storage T St}.
Variable order : ByteOrder.

(** A well-formed get request is answered by exactly one call of the
    storage's [get] and one response: [Ok] with the value when the key
    was found, [Noop] when it was not, [Err] with the text of the error
    when the storage failed. In all three cases [processRequest] returns
    a nil error and no stop, and the bytes after the request stay in the
    stream. *)
Lemma get_request_answer (s : T) (key rest out : list byte) (cl : bool) (st : St) :
  (List.length key <= 255)%nat ->
  processRequest order s
    (mkConn (requestGet :: wire (writeKey key) ++ rest) out None cl, st) =
    match get s key st with
    | (IO.Ok (value, found), st') =>
        (IO.Ok false,
         (mkConn rest
            (out ++ (if found then valueReply order value else [responseNoop]))
            None cl, st'))
    | (IO.Fail err, st') =>
        (IO.Ok false, (mkConn rest (out ++ errReply (Error err)) None cl, st'))
    | (IO.Crash w, st') => (IO.Crash w, (mkConn rest out None cl, st'))
    end.
Proof.
  intros Hkey. unfold processRequest. unfold IO.bind at 1.
  rewrite onFst_run. unfold readRequest. rewrite readByte_cons. cbn [fst snd].
  change (Byte.eqb requestGet requestGet) with true. cbv iota.
  unfold IO.bind at 1. unfold handleGet. unfold IO.bind at 1.
  rewrite wire_writeKey. cbn [app].
  rewrite onFst_run, readKey_encoded by exact Hkey. cbn [fst snd].
  unfold IO.bind at 1. unfold IO.try. rewrite onSnd_run.
  destruct (get s key st) as [[[value found] | err | w] st']; cbn [fst snd].
  - destruct found; cbn [negb].
    + unfold IO.bind. rewrite onFst_run. cbn [writeOK writeByte Write room fst snd
        incoming outgoing closed].
      rewrite onFst_run, writeValue_open. cbn [fst snd]. unfold valueReply, IO.ret.
      now rewrite <- app_assoc.
    + rewrite onFst_run. reflexivity.
  - rewrite onFst_run, writeErr_open. reflexivity.
  - reflexivity.
Qed.

(** A well-formed put request is answered by exactly one call of the
    storage's [put], whose [overwrite] argument is bit 0 of the flags
    byte alone (the other seven bits are ignored), and one response:
    [Ok] when the value was stored, [Noop] when it was not, [Err] with
    the text of the error otherwise. *)
Lemma put_request_answer (s : T) (key : list byte) (flags : byte)
  (value rest out : list byte) (cl : bool) (st : St) :
  (List.length key <= 255)%nat -> Go.blen value <= maxInt ->
  processRequest order s
    (mkConn (requestPut :: putFields order key flags value ++ rest) out None cl, st) =
    match put s key value (Z.odd (byteToZ flags)) st with
    | (IO.Ok stored, st') =>
        (IO.Ok false,
         (mkConn rest (out ++ [if stored then responseOK else responseNoop]) None cl,
          st'))
    | (IO.Fail err, st') =>
        (IO.Ok false, (mkConn rest (out ++ errReply (Error err)) None cl, st'))
    | (IO.Crash w, st') => (IO.Crash w, (mkConn rest out None cl, st'))
    end.
Proof.
  intros Hkey Hvalue. unfold processRequest. unfold IO.bind at 1.
  rewrite onFst_run. unfold readRequest. rewrite readByte_cons. cbn [fst snd].
  change (Byte.eqb requestPut requestGet) with false.
  change (Byte.eqb requestPut requestPut) with true. cbv iota.
  unfold IO.bind.
  rewrite (handlePut_dispatch order s key flags value rest out None cl st Hkey Hvalue).
  rewrite overwrite_bit.
  destruct (put s key value (Z.odd (byteToZ flags)) st) as [[stored | err | w] st'].
  - rewrite onFst_run. now destruct stored.
  - rewrite onFst_run, writeErr_open. reflexivity.
  - reflexivity.
Qed.

(** A well-formed remove request is answered by exactly one call of
    the storage's [remove] and one response: [Ok] when the entry was
    removed, [Noop] when there was none, [Err] with the text of the
    error otherwise. *)
Lemma remove_request_answer (s : T) (key rest out : list byte) (cl : bool) (st : St) :
  (List.length key <= 255)%nat ->
  processRequest order s
    (mkConn (requestRemove :: wire (writeKey key) ++ rest) out None cl, st) =
    match remove s key st with
    | (IO.Ok removed, st') =>
        (IO.Ok false,
         (mkConn rest (out ++ [if removed then responseOK else responseNoop]) None cl,
          st'))
    | (IO.Fail err, st') =>
        (IO.Ok false, (mkConn rest (out ++ errReply (Error err)) None cl, st'))
    | (IO.Crash w, st') => (IO.Crash w, (mkConn rest out None cl, st'))
    end.
Proof.
  intros Hkey. unfold processRequest. unfold IO.bind at 1.
  rewrite onFst_run. unfold readRequest. rewrite readByte_cons. cbn [fst snd].
  change (Byte.eqb requestRemove requestGet) with false.
  change (Byte.eqb requestRemove requestPut) with false.
  change (Byte.eqb requestRemove requestRemove) with true. cbv iota.
  unfold IO.bind at 1. unfold handleRemove. unfold IO.bind at 1.
  rewrite wire_writeKey. cbn [app].
  rewrite onFst_run, readKey_encoded by exact Hkey. cbn [fst snd].
  unfold IO.bind at 1. unfold IO.try. rewrite onSnd_run.
  destruct (remove s key st) as [[removed | err | w] st']; cbn [fst snd].
  - destruct removed; cbn [negb]; rewrite onFst_run; reflexivity.
  - rewrite onFst_run, writeErr_open. reflexivity.
  - reflexivity.
Qed.

End AnyStorage.

End DispatchFacts.

(** ** What the client of the helper sees for each answer of the backend *)

Section OverHTTP.

Import Protocol Server.

Lemma remove_run (s : Storage.storageClient) (key : list byte) (c : HTTP.Client)
  (urlStr : string) :
  Storage.buildURL s key = Go.Returns urlStr ->
  let req := Storage.addHeaders s (HTTP.NewRequest HTTP.DELETE urlStr []) in
  Storage.remove s key c =
    (match HTTP.RoundTrip c (HTTP.Sent c) req with
     | inl e => IO.Fail e
     | inr resp =>
         if HTTP.StatusCode resp =? 404 then IO.Ok false
         else if (200 <=? HTTP.StatusCode resp) && (HTTP.StatusCode resp <? 300)
         then IO.Ok true
         else IO.Fail (ErrHTTP (HTTP.StatusCode resp))
     end,
     HTTP.mkClient (HTTP.RoundTrip c) (HTTP.Sent c ++ [req])).
Proof.
  intros Hurl req. unfold Storage.remove, IO.bind. rewrite Hurl. cbn [IO.eval].
  fold req. unfold HTTP.Do, HTTP.StatusNotFound.
  destruct (HTTP.RoundTrip c (HTTP.Sent c) req) as [e | resp]; [reflexivity |].
  destruct (HTTP.StatusCode resp =? 404); [reflexivity |].
  now destruct ((200 <=? HTTP.StatusCode resp) && (HTTP.StatusCode resp <? 300)).
Qed.

(** X2. A get request over HTTP. For a key whose path is computed, one
    [GET] is sent and the client is answered [Noop] for the status 404,
    [Ok] with the whole body for the status 200, and [Err] in every
    other case: with ["HTTP <status>"] for any other status, with the
    text of the transport's or of the body's read error otherwise. The
    connection goes on in every case. *)
Theorem get_over_http (order : ByteOrder) (s : Storage.storageClient)
  (key rest out : list byte) (cl : bool) (c : HTTP.Client) (urlStr : string) :
  (List.length key <= 255)%nat ->
  Storage.buildURL s key = Go.Returns urlStr ->
  let req := Storage.addHeaders s (HTTP.NewRequest HTTP.GET urlStr []) in
  processRequest order s
    (mkConn (requestGet :: wire (writeKey key) ++ rest) out None cl, c) =
    (IO.Ok false,
     (mkConn rest
        (out ++
         match HTTP.RoundTrip c (HTTP.Sent c) req with
         | inl e => errReply (Error e)
         | inr resp =>
             if HTTP.StatusCode resp =? 404 then [responseNoop]
             else if HTTP.StatusCode resp =? 200 then
               match HTTP.RespBodyErr resp with
               | None => valueReply order (HTTP.RespBody resp)
               | Some e => errReply (Error e)
               end
             else errReply ("HTTP " ++ Go.itoa (HTTP.StatusCode resp))
         end)
        None cl,
      HTTP.mkClient (HTTP.RoundTrip c) (HTTP.Sent c ++ [req]))).
Proof.
  intros Hkey Hurl req.
  rewrite (get_request_answer order s key rest out cl c Hkey).
  change (get s key c) with (Storage.get s key c).
  rewrite (get_run s key c urlStr Hurl). fold req.
  unfold HTTP.StatusNotFound, HTTP.StatusOK.
  destruct (HTTP.RoundTrip c (HTTP.Sent c) req) as [e | resp]; [reflexivity |].
  destruct (HTTP.StatusCode resp =? 404); [reflexivity |].
  destruct (HTTP.StatusCode resp =? 200); cbn [negb]; [| reflexivity].
  now destruct (HTTP.RespBodyErr resp).
Qed.

Lemma get_over_http_witness :
  processRequest LittleEndian Sample.plain
    (mkConn (requestGet :: wire (writeKey [xab; xcd]) ++ [requestStop]) [] None false,
     Sample.always 503 [])
  = (IO.Ok false,
     (mkConn [requestStop] (errReply "HTTP 503") None false,
      HTTP.mkClient (HTTP.RoundTrip (Sample.always 503 []))
        [Storage.addHeaders Sample.plain
           (HTTP.NewRequest HTTP.GET "http://h/cache/ab/cd" [])])).
Proof.
  exact (get_over_http LittleEndian Sample.plain [xab; xcd] [requestStop] [] false
           (Sample.always 503 []) "http://h/cache/ab/cd" ltac:(simpl; lia) eq_refl).
Defined.

(** X3. A remove request over HTTP. For a key whose path is computed,
    one [DELETE] is sent and the client is answered [Noop] for the status
    404, [Ok] for the other statuses from 200 to 299, and [Err] in every
    other case: with ["HTTP <status>"] for a status, with the text of
    the transport's error otherwise. The connection goes on in every
    case. *)
Theorem remove_over_http (order : ByteOrder) (s : Storage.storageClient)
  (key rest out : list byte) (cl : bool) (c : HTTP.Client) (urlStr : string) :
  (List.length key <= 255)%nat ->
  Storage.buildURL s key = Go.Returns urlStr ->
  let req := Storage.addHeaders s (HTTP.NewRequest HTTP.DELETE urlStr []) in
  processRequest order s
    (mkConn (requestRemove :: wire (writeKey key) ++ rest) out None cl, c) =
    (IO.Ok false,
     (mkConn rest
        (out ++
         match HTTP.RoundTrip c (HTTP.Sent c) req with
         | inl e => errReply (Error e)
         | inr resp =>
             if HTTP.StatusCode resp =? 404 then [responseNoop]
             else if (200 <=? HTTP.StatusCode resp) && (HTTP.StatusCode resp <? 300)
             then [responseOK]
             else errReply ("HTTP " ++ Go.itoa (HTTP.StatusCode resp))
         end)
        None cl,
      HTTP.mkClient (HTTP.RoundTrip c) (HTTP.Sent c ++ [req]))).
Proof.
  intros Hkey Hurl req.
  rewrite (remove_request_answer order s key rest out cl c Hkey).
  change (remove s key c) with (Storage.remove s key c).
  rewrite (remove_run s key c urlStr Hurl). fold req.
  destruct (HTTP.RoundTrip c (HTTP.Sent c) req) as [e | resp]; [reflexivity |].
  destruct (HTTP.StatusCode resp =? 404); [reflexivity |].
  now destruct ((200 <=? HTTP.StatusCode resp) && (HTTP.StatusCode resp <? 300)).
Qed.

Lemma remove_over_http_witness :
  processRequest LittleEndian Sample.plain
    (mkConn (requestRemove :: wire (writeKey [xab; xcd]) ++ []) [] None false,
     Sample.always 204 [])
  = (IO.Ok false,
     (mkConn [] [responseOK] None false,
      HTTP.mkClient (HTTP.RoundTrip (Sample.always 204 []))
        [Storage.addHeaders Sample.plain
           (HTTP.NewRequest HTTP.DELETE "http://h/cache/ab/cd" [])])).
Proof.
  exact (remove_over_http LittleEndian Sample.plain [xab; xcd] [] [] false
           (Sample.always 204 []) "http://h/cache/ab/cd" ltac:(simpl; lia) eq_refl).
Defined.

(** X4. A put request over HTTP. For a key whose path is computed: with
    bit 0 of the flags set, the [PUT] is the only request and the client
    is answered [Ok] for a status from 200 to 299 and [Err] otherwise
    (a 404 included). With bit 0 clear, the [HEAD] goes first: when it
    fails in the transport the client is answered [Err] and no [PUT] is
    sent; when it is answered 200 the client gets [Noop]; in every other
    case the [PUT] follows and decides the answer as before. *)
Theorem put_over_http (order : ByteOrder) (s : Storage.storageClient)
  (key : list byte) (flags : byte) (value rest out : list byte) (cl : bool)
  (c : HTTP.Client) (urlStr : string) :
  (List.length key <= 255)%nat -> Go.blen value <= maxInt ->
  Storage.buildURL s key = Go.Returns urlStr ->
  let putAnswer (before : list HTTP.Request) :=
    match HTTP.RoundTrip c before (putRequestSent s urlStr value) with
    | inl e => errReply (Error e)
    | inr resp =>
        if (200 <=? HTTP.StatusCode resp) && (HTTP.StatusCode resp <? 300)
        then [responseOK]
        else errReply ("HTTP " ++ Go.itoa (HTTP.StatusCode resp))
    end in
  let sent := HTTP.Sent c in
  let head := headRequest s urlStr in
  processRequest order s
    (mkConn (requestPut :: putFields order key flags value ++ rest) out None cl, c) =
    if Z.odd (byteToZ flags) then
      (IO.Ok false,
       (mkConn rest (out ++ putAnswer sent) None cl,
        HTTP.mkClient (HTTP.RoundTrip c) (sent ++ [putRequestSent s urlStr value])))
    else
      match HTTP.RoundTrip c sent head with
      | inl e =>
          (IO.Ok false,
           (mkConn rest (out ++ errReply (Error e)) None cl,
            HTTP.mkClient (HTTP.RoundTrip c) (sent ++ [head])))
      | inr resp =>
          if HTTP.StatusCode resp =? 200 then
            (IO.Ok false,
             (mkConn rest (out ++ [responseNoop]) None cl,
              HTTP.mkClient (HTTP.RoundTrip c) (sent ++ [head])))
          else
            (IO.Ok false,
             (mkConn rest (out ++ putAnswer (sent ++ [head])%list) None cl,
              HTTP.mkClient (HTTP.RoundTrip c)
                (sent ++ [head; putRequestSent s urlStr value])))
      end.
Proof.
  intros Hkey Hvalue Hurl putAnswer sent head.
  rewrite (put_request_answer order s key flags value rest out cl c Hkey Hvalue).
  change (put s key value (Z.odd (byteToZ flags)) c)
    with (Storage.put s key value (Z.odd (byteToZ flags)) c).
  assert (Hput : forall c1 : HTTP.Client,
            HTTP.RoundTrip c1 = HTTP.RoundTrip c ->
            match Storage.putRequest s urlStr value c1 with
            | (IO.Ok stored, st') =>
                (IO.Ok false,
                 (mkConn rest (out ++ [if stored then responseOK else responseNoop])
                    None cl, st'))
            | (IO.Fail err, st') =>
                (IO.Ok false, (mkConn rest (out ++ errReply (Error err)) None cl, st'))
            | (IO.Crash w, st') => (IO.Crash w, (mkConn rest out None cl, st'))
            end
            = (IO.Ok false,
               (mkConn rest (out ++ putAnswer (HTTP.Sent c1)) None cl,
                HTTP.mkClient (HTTP.RoundTrip c)
                  (HTTP.Sent c1 ++ [putRequestSent s urlStr value])))).
  { intros c1 Hsame. rewrite putRequest_run, Hsame. unfold putAnswer.
    destruct (HTTP.RoundTrip c (HTTP.Sent c1) (putRequestSent s urlStr value))
      as [e | resp]; [reflexivity |].
    now destruct ((200 <=? HTTP.StatusCode resp) && (HTTP.StatusCode resp <? 300)). }
  destruct (Z.odd (byteToZ flags)).
  - rewrite (put_overwrite_run s key value c urlStr Hurl).
    exact (Hput c eq_refl).
  - rewrite (put_checked_run s key value c urlStr Hurl).
    fold head. fold sent. unfold HTTP.StatusOK.
    destruct (HTTP.RoundTrip c sent head) as [e | resp]; [reflexivity |].
    destruct (HTTP.StatusCode resp =? 200); [reflexivity |].
    rewrite (Hput (HTTP.mkClient (HTTP.RoundTrip c) (sent ++ [head])%list) eq_refl).
    cbn [HTTP.Sent]. now rewrite <- app_assoc.
Qed.

Lemma put_over_http_witness :
  processRequest LittleEndian Sample.plain
    (mkConn (requestPut :: putFields LittleEndian [xab; xcd] x00 [x78] ++ [])
       [] None false,
     Sample.headThen 404 201)
  = (IO.Ok false,
     (mkConn [] [responseOK] None false,
      HTTP.mkClient (HTTP.RoundTrip (Sample.headThen 404 201))
        [headRequest Sample.plain "http://h/cache/ab/cd";
         putRequestSent Sample.plain "http://h/cache/ab/cd" [x78]])).
Proof.
  exact (put_over_http LittleEndian Sample.plain [xab; xcd] x00 [x78] [] [] false
           (Sample.headThen 404 201) "http://h/cache/ab/cd" ltac:(simpl; lia)
           ltac:(vm_compute; discriminate) eq_refl).
Defined.

End OverHTTP.

(** ** Requests that end too early *)

Section FramingFacts.

Import Protocol Server.




Section AnyStorage.

Context {T St : Type} `{storage T St}.
Variable order : ByteOrder.


End AnyStorage.



End FramingFacts.

(** ** Stop requests and the end of a connection *)

Section ConnectionEnd.

Import Protocol Server.

(** X6. A stop request is answered [Ok] without a call of the storage,
    cancels the server's context and ends the connection; the bytes after
    it are never read. When the [Ok] cannot be written, the connection
    ends all the same but the context is not cancelled: the server keeps
    running. *)
Theorem stop_request_cancels_when_answered (order : ByteOrder) (srv : ipcServer)
  (h : HTTP.Client) (rest out : list byte) (r : option nat) (cl : bool) (fuel : nat) :
  (fits r 1 ->
   requestLoop order (S fuel) srv (mkConn (requestStop :: rest) out r cl, h)
     = Some (Returned, cancel srv,
             (mkConn rest (out ++ [responseOK]) (spend r 1) true, h))) /\
  (r = Some 0%nat ->
   requestLoop order (S fuel) srv (mkConn (requestStop :: rest) out r cl, h)
     = Some (Returned, srv, (mkConn rest out (Some 0%nat) true, h))).
Proof.
  split.
  - intros Hfits. cbn [requestLoop]. rewrite processRequest_stop.
    unfold IO.bind, handleStop. rewrite onFst_run.
    unfold writeOK, writeByte. rewrite Write_fits by exact Hfits. reflexivity.
  - intros ->. cbn [requestLoop]. rewrite processRequest_stop.
    unfold IO.bind, handleStop. rewrite onFst_run.
    cbn. now rewrite app_nil_r.
Qed.

Lemma stop_request_cancels_when_answered_witness :
  requestLoop LittleEndian 1 Sample.server
    (mkConn [requestStop; requestGet] [] (Some 1%nat) false, Sample.unreachable)
    = Some (Returned, cancel Sample.server,
            (mkConn [requestGet] [responseOK] (Some 0%nat) true, Sample.unreachable)) /\
  requestLoop LittleEndian 1 Sample.server
    (mkConn [requestStop; requestGet] [] (Some 0%nat) false, Sample.unreachable)
    = Some (Returned, Sample.server,
            (mkConn [requestGet] [] (Some 0%nat) true, Sample.unreachable)).
Proof.
  destruct (stop_request_cancels_when_answered LittleEndian Sample.server
              Sample.unreachable [requestGet] [] (Some 1%nat) false 0) as [Hok _].
  destruct (stop_request_cancels_when_answered LittleEndian Sample.server
              Sample.unreachable [requestGet] [] (Some 0%nat) false 0) as [_ Hfull].
  split; [exact (Hok (le_n 1)) | exact (Hfull eq_refl)].
Defined.

Lemma resetIdleTimer_keeps (s : ipcServer) :
  storage_ (resetIdleTimer s) = storage_ s /\
  IdleTimeout (resetIdleTimer s) = IdleTimeout s /\
  ctxDone (resetIdleTimer s) = ctxDone s.
Proof. unfold resetIdleTimer. now destruct (IdleTimeout s =? 0). Qed.

Lemma requestLoop_closes (order : ByteOrder) (fuel : nat) :
  forall (s s' : ipcServer) (st : Conn * HTTP.Client) (e : ending)
         (c' : Conn) (h' : HTTP.Client),
    requestLoop order fuel s st = Some (e, s', (c', h')) ->
    closed c' = true /\ storage_ s' = storage_ s /\ IdleTimeout s' = IdleTimeout s /\
    (ctxDone s' = true -> ctxDone s = true \/ e = Returned).
Proof.
  induction fuel as [|fuel IH]; intros s s' st e c' h' Hloop; [discriminate |].
  cbn [requestLoop] in Hloop.
  destruct (processRequest order (storage_ s) st) as [[[|] | err | w] [c h]].
  - injection Hloop as <- <- <- <-. cbn. auto.
  - destruct (IH _ _ _ _ _ _ Hloop) as (Hcl & Hst & Hidle & Hdone).
    destruct (resetIdleTimer_keeps s) as (Hst' & Hidle' & Hdone').
    rewrite Hst, Hidle, Hst', Hidle'. rewrite Hdone' in Hdone. auto.
  - injection Hloop as <- <- <- <-. cbn. auto.
  - injection Hloop as <- <- <- <-. cbn. auto.
Qed.

(** X7. [handleConnection] comes to an end on every connection, and on
    every way out (peer gone, framing error, failed write, stop request,
    panic) the connection is closed; the server's storage client and
    idle timeout are as before, and the context is cancelled by the
    handler only on a return, never on a panic. *)
Theorem handleConnection_always_closes (order : ByteOrder) (s : ipcServer)
  (st : Conn * HTTP.Client) :
  exists (e : ending) (s' : ipcServer) (c' : Conn) (h' : HTTP.Client),
    handleConnection order s st = Some (e, s', (c', h')) /\
    closed c' = true /\
    storage_ s' = storage_ s /\ IdleTimeout s' = IdleTimeout s /\
    (ctxDone s' = true -> ctxDone s = true \/ e = Returned).
Proof.
  pose proof (handleConnection_returns order s st) as Hsome.
  destruct (handleConnection order s st) as [[[e s'] [c' h']]|] eqn:Hrun;
    [| contradiction].
  exists e, s', c', h'. split; [reflexivity |].
  unfold handleConnection in Hrun.
  destruct (IO.onFst writeGreeting st) as [[u | err | w] [c h]].
  - exact (requestLoop_closes order _ _ _ _ _ _ _ Hrun).
  - injection Hrun as <- <- <- <-. cbn. auto.
  - injection Hrun as <- <- <- <-. cbn. auto.
Qed.

End ConnectionEnd.

(** ** The idle timer when it is enabled *)

Section IdleTimerEnabled.

Import Server.

Lemma timer_eqb_refl (t : timer) : timer_eqb t t = true.
Proof. unfold timer_eqb. now rewrite Nat.eqb_refl, Z.eqb_refl. Qed.

Lemma stopTimer_only (t : timer) : stopTimer t [t] = [].
Proof. unfold stopTimer. cbn. now rewrite timer_eqb_refl. Qed.

Lemma resets_snoc (evs : list event) (ev : event) :
  resets (evs ++ [ev]) = (resets evs + (if isReset ev then 1 else 0))%nat.
Proof.
  unfold resets. rewrite List.filter_app, length_app. cbn.
  now destruct (isReset ev).
Qed.

Lemma ticking_reset (d : Z) (n : nat) (s : ipcServer) :
  d <> 0 -> ticking d n s ->
  ticking d (S n) (resetIdleTimer s) /\ armed (resetIdleTimer s) = [mkTimer (S n) d].
Proof.
  intros Hd (Hidle & Htimer & Hmade & Harmed). unfold resetIdleTimer.
  rewrite Hidle, (proj2 (Z.eqb_neq _ _) Hd), Htimer, Hmade.
  assert (Hstop : stopTimer (mkTimer n d) (armed s) = []).
  { destruct Harmed as [-> | ->]; [apply stopTimer_only | reflexivity]. }
  rewrite Hstop. repeat split; auto.
Qed.

Lemma ticking_run (d : Z) (sc : Storage.storageClient) (evs : list event)
  (s : ipcServer) :
  d <> 0 -> run (started d sc) evs s -> ticking d (resets evs) s.
Proof.
  intros Hd Hrun.
  remember (started d sc) as s0 eqn:Hs0.
  induction Hrun as [s | s evs s' ev s'' Hrun IH Hstep].
  - subst s. unfold started, resetIdleTimer, newServer. cbn.
    rewrite (proj2 (Z.eqb_neq _ _) Hd). repeat split; auto.
  - specialize (IH Hs0). rewrite resets_snoc.
    destruct Hstep as [s' | s' | s' | s' t Hin | s']; cbn [isReset].
    + rewrite Nat.add_1_r. now apply ticking_reset.
    + rewrite Nat.add_1_r. now apply ticking_reset.
    + rewrite Nat.add_0_r. exact IH.
    + rewrite Nat.add_0_r.
      destruct IH as (Hidle & Htimer & Hmade & Harmed).
      repeat split; auto. right. cbn.
      destruct Harmed as [Ha | Ha]; rewrite Ha in *; [| reflexivity].
      destruct Hin as [<- | []]. apply stopTimer_only.
    + rewrite Nat.add_0_r. exact IH.
Qed.

(** X8. With an idle timeout that is not zero, every reset stops the
    timer before it and arms a new one: after any run of the server the
    timer of the last reset is the only one that can still be armed, as
    many timers were made as there were resets (and one at start-up), and
    a timer that fires is that last one; firing cancels the context and
    leaves no timer armed. *)
Theorem idle_timer_is_replaced_on_reset (d : Z) (sc : Storage.storageClient)
  (evs : list event) (s : ipcServer) :
  d <> 0 -> run (started d sc) evs s ->
  idleTimer s = Some (mkTimer (resets evs) d) /\
  timersMade s = S (resets evs) /\
  (armed s = [mkTimer (resets evs) d] \/ armed s = []) /\
  armed (resetIdleTimer s) = [mkTimer (S (resets evs)) d] /\
  forall (t : timer) (s' : ipcServer),
    step s (TimerFired t) s' ->
    t = mkTimer (resets evs) d /\ ctxDone s' = true /\ armed s' = [].
Proof.
  intros Hd Hrun.
  pose proof (ticking_run d sc evs s Hd Hrun) as Htick.
  destruct (ticking_reset d (resets evs) s Hd Htick) as [_ Hnext].
  destruct Htick as (Hidle & Htimer & Hmade & Harmed).
  split; [exact Htimer |]. split; [exact Hmade |]. split; [exact Harmed |].
  split; [exact Hnext |].
  intros t s' Hstep. inversion Hstep as [| | | s0 t0 Hin |]; subst.
  destruct Harmed as [Ha | Ha]; rewrite Ha in Hin; [| destruct Hin].
  destruct Hin as [<- | []].
  split; [reflexivity |]. split; [reflexivity |].
  cbn. rewrite Ha. apply stopTimer_only.
Qed.

Lemma idle_timer_is_replaced_on_reset_witness :
  armed (resetIdleTimer (resetIdleTimer (started 5000000000 Sample.plain)))
    = [mkTimer 2 5000000000].
Proof.
  assert (Hr : run (started 5000000000 Sample.plain) ([] ++ [Accepted])
                 (resetIdleTimer (started 5000000000 Sample.plain))).
  { apply (run_snoc _ [] (started 5000000000 Sample.plain) Accepted);
      [apply run_nil | apply step_accept]. }
  exact (proj1 (proj2 (proj2 (proj2
           (idle_timer_is_replaced_on_reset 5000000000 Sample.plain _ _
              ltac:(discriminate) Hr))))).
Defined.

End IdleTimerEnabled.

(** ** URLs and paths *)

Section PathFacts.

Import Storage.

Lemma string_app_assoc (a b c : string) : (a ++ b) ++ c = a ++ b ++ c.
Proof.
  induction a as [|x a IH]; [reflexivity |].
  change (String x ((a ++ b) ++ c) = String x (a ++ b ++ c)). now f_equal.
Qed.

Lemma substring_after (p q : string) (m : nat) :
  substring (String.length p) m (p ++ q) = substring 0 m q.
Proof. induction p as [|x p IH]; simpl; [reflexivity | exact IH]. Qed.

Lemma HasSuffix_slash (p : string) : Go.HasSuffix (p ++ "/") "/" = true.
Proof.
  unfold Go.HasSuffix. rewrite length_append. cbn [String.length].
  replace (String.length p + 1 - 1)%nat with (String.length p) by lia.
  rewrite substring_after.
  destruct (Nat.leb_spec 1 (String.length p + 1)); [reflexivity | lia].
Qed.

(** X9. [buildURL] joins the base path and the path of the key with one
    slash whether or not the base path ends in one: for a base path [p]
    that does not end in a slash (the empty one included) and for the
    base path [p/] alike, the path of the URL is [p], a slash and the
    path of the key; [buildURL] returns what [String] makes of the base
    URL with that path, the same for both base paths. *)
Theorem buildURL_joins_with_one_slash (s : storageClient) (p : string)
  (key : list byte) (path : string) :
  Go.HasSuffix p "/" = false ->
  keyToPath (layout s) key = Go.Returns path ->
  joinPath p path = p ++ "/" ++ path /\
  joinPath (p ++ "/") path = p ++ "/" ++ path /\
  buildURL (withBasePath s p) key
    = Go.Returns (URL_String (mkURL (Scheme (baseURL s)) (Host (baseURL s))
                                (p ++ "/" ++ path))) /\
  buildURL (withBasePath s (p ++ "/")) key = buildURL (withBasePath s p) key.
Proof.
  intros Hslash Hpath.
  assert (Hp : joinPath p path = p ++ "/" ++ path).
  { unfold joinPath. rewrite Hslash.
    destruct (String.eqb_spec p EmptyString) as [-> | _]; reflexivity. }
  assert (Hps : joinPath (p ++ "/") path = p ++ "/" ++ path).
  { unfold joinPath. rewrite HasSuffix_slash. apply string_app_assoc. }
  assert (Hbuild : forall q : string,
            buildURL (withBasePath s q) key
              = Go.Returns (URL_String (mkURL (Scheme (baseURL s)) (Host (baseURL s))
                                          (joinPath q path)))).
  { intros q. unfold buildURL, withBasePath. cbn [baseURL layout Path Scheme Host].
    now rewrite Hpath. }
  split; [exact Hp |]. split; [exact Hps |]. split.
  - now rewrite Hbuild, Hp.
  - now rewrite !Hbuild, Hp, Hps.
Qed.

Lemma buildURL_joins_with_one_slash_witness :
  joinPath "/cache" "ab/cd" = "/cache/ab/cd" /\
  joinPath "/cache/" "ab/cd" = "/cache/ab/cd" /\
  buildURL (withBasePath Sample.plain "/cache") [xab; xcd]
    = Go.Returns "http://h/cache/ab/cd" /\
  buildURL (withBasePath Sample.plain "/cache/") [xab; xcd]
    = buildURL (withBasePath Sample.plain "/cache") [xab; xcd].
Proof.
  exact (buildURL_joins_with_one_slash Sample.plain "/cache" [xab; xcd] "ab/cd"
           eq_refl eq_refl).
Defined.

(** [String] escapes what a path cannot hold as it is: a space in the
    base path arrives as [%20]. *)
Example buildURL_escapes_the_base_path :
  buildURL (withBasePath Sample.plain "/my cache") [xab; xcd]
    = Go.Returns "http://h/my%20cache/ab/cd" /\
  buildURL (withBasePath Sample.plain EmptyString) [xab; xcd]
    = Go.Returns "http://h/ab/cd".
Proof. split; reflexivity. Qed.

Lemma digit_inj (n m : N) :
  (n < 16)%N -> (m < 16)%N -> Hex.digit n = Hex.digit m -> n = m.
Proof.
  intros Hn Hm.
  assert (Hcn : In n (map N.of_nat (seq 0 16))).
  { apply in_map_iff. exists (N.to_nat n). split; [lia |]. apply in_seq. lia. }
  assert (Hcm : In m (map N.of_nat (seq 0 16))).
  { apply in_map_iff. exists (N.to_nat m). split; [lia |]. apply in_seq. lia. }
  simpl in Hcn, Hcm.
  repeat (destruct Hcn as [<- | Hcn]);
    try (destruct Hcn);
    repeat (destruct Hcm as [<- | Hcm]);
    try (destruct Hcm);
    intros Hd; first [reflexivity | discriminate Hd].
Qed.

Lemma byte_of_nibbles (v : byte) :
  Byte.to_N v = (16 * N.shiftr (Byte.to_N v) 4 + N.land (Byte.to_N v) 15)%N.
Proof.
  rewrite N.shiftr_div_pow2. change 15%N with (N.ones 4). rewrite N.land_ones.
  change (2 ^ 4)%N with 16%N. apply N.div_mod. discriminate.
Qed.

Lemma encodeByte_inj (v1 v2 : byte) (t1 t2 : string) :
  Hex.encodeByte v1 t1 = Hex.encodeByte v2 t2 -> v1 = v2 /\ t1 = t2.
Proof.
  unfold Hex.encodeByte. intros Heq. injection Heq as Hhi Hlo Htl.
  split; [| exact Htl].
  pose proof (byte_to_N_lt v1) as H1. pose proof (byte_to_N_lt v2) as H2.
  apply digit_inj in Hhi, Hlo.
  - assert (HN : Byte.to_N v1 = Byte.to_N v2)
      by (rewrite (byte_of_nibbles v1), (byte_of_nibbles v2); congruence).
    pose proof (Byte.of_to_N v1) as E1. pose proof (Byte.of_to_N v2) as E2.
    congruence.
  - change 15%N with (N.ones 4). rewrite N.land_ones. apply N.mod_lt. discriminate.
  - change 15%N with (N.ones 4). rewrite N.land_ones. apply N.mod_lt. discriminate.
  - rewrite N.shiftr_div_pow2. change (2 ^ 4)%N with 16%N.
    apply N.Div0.div_lt_upper_bound. simpl. lia.
  - rewrite N.shiftr_div_pow2. change (2 ^ 4)%N with 16%N.
    apply N.Div0.div_lt_upper_bound. simpl. lia.
Qed.

Lemma EncodeToString_inj (k1 : list byte) : forall k2 : list byte,
  Hex.EncodeToString k1 = Hex.EncodeToString k2 -> k1 = k2.
Proof.
  induction k1 as [|v1 k1 IH]; intros [|v2 k2] Heq; cbn [Hex.EncodeToString] in Heq.
  - reflexivity.
  - discriminate Heq.
  - discriminate Heq.
  - apply encodeByte_inj in Heq as [-> Htl]. f_equal. now apply IH.
Qed.

(** The subdirs path of a key that is not empty: the two hex digits of
    its first byte, a slash, the hex digits of the rest. *)
Lemma keyToPath_subdirs_cons (layout : string) (v : byte) (rest : list byte) :
  layout <> "flat" -> layout <> "bazel" ->
  keyToPath layout (v :: rest)
    = Go.Returns (Hex.encodeByte v ("/" ++ Hex.EncodeToString rest)).
Proof.
  intros Hflat Hbazel. unfold keyToPath.
  rewrite (proj2 (String.eqb_neq _ _) Hflat), (proj2 (String.eqb_neq _ _) Hbazel).
  pose proof (len_EncodeToString (v :: rest)) as HL.
  cbn [List.length] in HL.
  destruct (Z.ltb_spec (Go.len (Hex.EncodeToString (v :: rest))) 2); [lia |].
  unfold Go.slice_to, Go.slice_from. rewrite !slice_in_bounds by lia.
  cbn [Go.obind]. rewrite HL.
  replace (Z.to_nat (2 * Z.of_nat (S (List.length rest)) - 2))
    with (String.length (Hex.EncodeToString rest))
    by (rewrite EncodeToString_length; lia).
  cbn [Hex.EncodeToString]. unfold Hex.encodeByte.
  change (Z.to_nat (2 - 0)) with 2%nat. change (Z.to_nat 0) with 0%nat.
  change (Z.to_nat 2) with 2%nat. cbn [substring].
  rewrite substring_0_length.
  destruct (Hex.EncodeToString rest); reflexivity.
Qed.

Lemma Returns_inj {A : Type} (a b : A) : Go.Returns a = Go.Returns b -> a = b.
Proof. now intros [= ->]. Qed.

Lemma keyToPath_same_path (layout : string) (k1 k2 : list byte) :
  layout <> "bazel" ->
  keyToPath layout k1 = keyToPath layout k2 -> k1 = k2.
Proof.
  intros Hbazel.
  destruct (String.eqb_spec layout "flat") as [-> | Hflat].
  - rewrite !keyToPath_flat. intros Heq. apply Returns_inj in Heq.
    now apply EncodeToString_inj.
  - destruct k1 as [|v1 k1], k2 as [|v2 k2];
      rewrite ?(keyToPath_subdirs_cons layout _ _ Hflat Hbazel).
    + reflexivity.
    + unfold keyToPath at 1.
      rewrite (proj2 (String.eqb_neq _ _) Hflat), (proj2 (String.eqb_neq _ _) Hbazel).
      cbn. discriminate.
    + unfold keyToPath at 1.
      rewrite (proj2 (String.eqb_neq _ _) Hflat), (proj2 (String.eqb_neq _ _) Hbazel).
      cbn. discriminate.
    + intros Heq. apply Returns_inj in Heq.
      apply encodeByte_inj in Heq as [-> Htl]. injection Htl as Htl.
      f_equal. now apply EncodeToString_inj.
Qed.

(** X10. In the [flat] layout and in the subdirs layout (every layout
    string but [flat] and [bazel]) no two keys share a path: different
    keys are stored under different paths. *)
Theorem keyToPath_never_collides (layout : string) (k1 k2 : list byte) :
  layout <> "bazel" -> k1 <> k2 ->
  keyToPath layout k1 <> keyToPath layout k2.
Proof.
  intros Hbazel Hdiff Heq. apply Hdiff.
  exact (keyToPath_same_path layout k1 k2 Hbazel Heq).
Qed.

Lemma keyToPath_never_collides_witness :
  keyToPath "subdirs" [xab] <> keyToPath "subdirs" [xab; x00].
Proof.
  exact (keyToPath_never_collides "subdirs" [xab] [xab; x00]
           ltac:(discriminate) ltac:(discriminate)).
Defined.

Lemma EncodeToString_app (a b : list byte) :
  Hex.EncodeToString (a ++ b) = Hex.EncodeToString a ++ Hex.EncodeToString b.
Proof.
  induction a as [|v a IH]; [reflexivity |].
  cbn [app Hex.EncodeToString]. rewrite IH. reflexivity.
Qed.

Lemma substring_EncodeToString (n : nat) : forall key : list byte,
  substring 0 (2 * n) (Hex.EncodeToString key) = Hex.EncodeToString (firstn n key).
Proof.
  induction n as [|n IH]; intros key.
  - cbn [firstn Hex.EncodeToString]. now destruct (Hex.EncodeToString key).
  - replace (2 * S n)%nat with (S (S (2 * n))) by lia.
    destruct key as [|v key]; [reflexivity |].
    cbn [firstn Hex.EncodeToString]. unfold Hex.encodeByte.
    cbn [substring]. now rewrite IH.
Qed.

(** X11. In the [bazel] layout a key of 16 bytes or more is stored under
    [ac/] and the hex form of 32 bytes: the first 32 bytes of the key
    followed by itself. So a key of 32 bytes or more is cut to its first
    32 bytes, a shorter one is filled up with its own first bytes, and
    two keys that agree on these 32 bytes share one path. *)
Theorem keyToPath_bazel_is_32_bytes (key : list byte) :
  (16 <= List.length key)%nat ->
  keyToPath "bazel" key
    = Go.Returns ("ac/" ++ Hex.EncodeToString (firstn 32 (key ++ key))) /\
  forall key' : list byte,
    (16 <= List.length key')%nat ->
    firstn 32 (key' ++ key') = firstn 32 (key ++ key) ->
    keyToPath "bazel" key' = keyToPath "bazel" key.
Proof.
  assert (Hshape : forall k : list byte, (16 <= List.length k)%nat ->
            keyToPath "bazel" k
              = Go.Returns ("ac/" ++ Hex.EncodeToString (firstn 32 (k ++ k)))).
  { intros k Hlen.
    destruct (keyToPath_bazel_long k Hlen) as (digits & Hpath & _ & _ & Hdigits).
    cbv zeta in Hdigits. rewrite Hpath. do 2 f_equal. rewrite Hdigits.
    rewrite EncodeToString_length, firstn_app.
    destruct (Nat.leb_spec 64 (2 * List.length k)) as [Hbig | Hsmall].
    - replace (32 - List.length k)%nat with 0%nat by lia.
      cbn [firstn]. rewrite app_nil_r.
      exact (substring_EncodeToString 32 k).
    - rewrite firstn_all2 by lia. rewrite EncodeToString_app. f_equal.
      replace (64 - 2 * List.length k)%nat with (2 * (32 - List.length k))%nat by lia.
      apply substring_EncodeToString. }
  intros Hlen. split; [now apply Hshape |].
  intros key' Hlen' Hsame. rewrite (Hshape key' Hlen'), (Hshape key Hlen).
  now rewrite Hsame.
Qed.

Lemma keyToPath_bazel_is_32_bytes_witness :
  keyToPath "bazel" (repeat xab 20) = keyToPath "bazel" (repeat xab 40).
Proof.
  refine (proj2 (keyToPath_bazel_is_32_bytes (repeat xab 40) _) (repeat xab 20) _ _).
  - rewrite repeat_length. lia.
  - rewrite repeat_length. lia.
  - reflexivity.
Defined.

End PathFacts.

(** ** The configuration *)

Section ConfigFacts.

Import Config.

Variable U : Type.
Variable Parse : string -> string + U.
Variable GOOS : string.
Variable Getenv : string -> string.

Lemma Index_range (s : string) (c : ascii) :
  Index s c = -1 \/ 0 <= Index s c < Go.len s.
Proof.
  unfold Go.len. induction s as [|x s IH]; [now left |].
  cbn [Index String.length]. destruct (Ascii.eqb x c); [right; lia |].
  destruct (Z.ltb_spec (Index s c) 0); [now left | right; lia].
Qed.



Lemma attribute_returns (i : Z) (cfg : config U) :
  exists cfg', attribute U Getenv i cfg = Go.Returns cfg'.
Proof.
  unfold Config.attribute.
  destruct (String.eqb (attrKey Getenv i) EmptyString); [eauto |].
  destruct (String.eqb (attrKey Getenv i) "layout"); [eauto |].
  destruct (String.eqb (attrKey Getenv i) "bearer-token"); [eauto |].
  destruct (String.eqb (attrKey Getenv i) "header"); [| eauto].
  destruct (Z.leb_spec (Index (attrValue Getenv i) "=") 0) as [Hle | Hgt]; [eauto |].
  destruct (Index_range (attrValue Getenv i) "=") as [Hno | Hin]; [lia |].
  unfold Go.slice_to, Go.slice_from. rewrite !slice_in_bounds by lia.
  cbn [Go.obind]. eauto.
Qed.

Lemma attributes_S (m : nat) (cfg : config U) :
  attributes U Getenv (S m) cfg
    = Go.obind (attributes U Getenv m cfg) (fun c => attribute U Getenv (Z.of_nat m) c).
Proof.
  unfold Config.attributes. rewrite seq_S, fold_left_app. reflexivity.
Qed.

Lemma attributes_returns (m : nat) (cfg : config U) :
  exists cfg', attributes U Getenv m cfg = Go.Returns cfg'.
Proof.
  induction m as [|m [c Hc]]; [now exists cfg |].
  rewrite attributes_S, Hc. cbn [Go.obind]. apply attribute_returns.
Qed.

(** X12. [parseConfig] never panics: the slices that split a header
    attribute are always in range. It returns a configuration exactly
    when [CRSH_URL] is set and parses and [CRSH_IDLE_TIMEOUT] and
    [CRSH_NUM_ATTR], read as 0 when they are not set, are integers; it
    returns an error in every other case. *)
Theorem parseConfig_returns :
  (exists r, parseConfig U Parse GOOS Getenv = Go.Returns r) /\
  ((exists cfg, parseConfig U Parse GOOS Getenv = Go.Returns (inr cfg)) <->
   (Getenv "CRSH_URL" <> EmptyString /\
    (exists u, Parse (Getenv "CRSH_URL") = inr u) /\
    Atoi (orZero (Getenv "CRSH_IDLE_TIMEOUT")) <> None /\
    Atoi (orZero (Getenv "CRSH_NUM_ATTR")) <> None)).
Proof.
  unfold parseConfig.
  destruct (String.eqb_spec (Getenv "CRSH_URL") EmptyString) as [Hurl | Hurl].
  { split; [eauto |]. split; [intros [cfg Habs]; discriminate | tauto]. }
  destruct (Parse (Getenv "CRSH_URL")) as [cause | u].
  { split; [eauto |].
    split; [intros [cfg Habs]; discriminate | intros (_ & [u' Hu] & _); discriminate]. }
  destruct (Atoi (orZero (Getenv "CRSH_IDLE_TIMEOUT"))) as [secs|].
  2: { split; [eauto |].
       split; [intros [cfg Habs]; discriminate | intros (_ & _ & Habs & _); congruence]. }
  destruct (Atoi (orZero (Getenv "CRSH_NUM_ATTR"))) as [n|].
  2: { split; [eauto |].
       split; [intros [cfg Habs]; discriminate | intros (_ & _ & _ & Habs); congruence]. }
  match goal with
  | |- context [attributes U Getenv ?m ?c] =>
      destruct (attributes_returns m c) as [cfg Hcfg]; rewrite Hcfg
  end.
  cbn [Go.obind]. split; [eauto |].
  split; [intros _ | eauto].
  repeat split; eauto; discriminate.
Qed.

(** What [parseConfig] returns when it returns a configuration. *)
Lemma parseConfig_config (cfg : config U) :
  parseConfig U Parse GOOS Getenv = Go.Returns (inr cfg) ->
  exists (u : U) (secs n : Z),
    Atoi (orZero (Getenv "CRSH_IDLE_TIMEOUT")) = Some secs /\
    Atoi (orZero (Getenv "CRSH_NUM_ATTR")) = Some n /\
    attributes U Getenv (Z.to_nat n)
      (mkConfig (Getenv "CRSH_LOGFILE")
         (if String.eqb GOOS "windows"
          then "\\.\pipe\" ++ Getenv "CRSH_IPC_ENDPOINT"
          else Getenv "CRSH_IPC_ENDPOINT")
         u (wrap64 (secs * Second)) "subdirs" EmptyString ∅)
    = Go.Returns cfg.
Proof.
  unfold parseConfig.
  destruct (String.eqb (Getenv "CRSH_URL") EmptyString); [discriminate |].
  destruct (Parse (Getenv "CRSH_URL")) as [cause | u]; [discriminate |].
  destruct (Atoi (orZero (Getenv "CRSH_IDLE_TIMEOUT"))) as [secs|]; [| discriminate].
  destruct (Atoi (orZero (Getenv "CRSH_NUM_ATTR"))) as [n|]; [| discriminate].
  match goal with
  | |- context [attributes U Getenv ?m ?c] =>
      destruct (attributes_returns m c) as [cfg' Hcfg]; rewrite Hcfg
  end.
  cbn [Go.obind]. intros [= <-]. exists u, secs, n. auto.
Qed.

(** One round of the loop, field by field. *)
Lemma attribute_fields (i : Z) (cfg : config U) :
  exists cfg', attribute U Getenv i cfg = Go.Returns cfg' /\
    IdleTimeout cfg' = IdleTimeout cfg /\
    Layout cfg' = (if String.eqb (attrKey Getenv i) "layout" then attrValue Getenv i
                   else Layout cfg) /\
    BearerToken cfg' = (if String.eqb (attrKey Getenv i) "bearer-token" then attrValue Getenv i
                        else BearerToken cfg) /\
    Headers cfg' = (if String.eqb (attrKey Getenv i) "header" then
                      match headerOf (attrValue Getenv i) with
                      | Some (k, v) => <[k := v]> (Headers cfg)
                      | None => Headers cfg
                      end
                    else Headers cfg).
Proof.
  unfold Config.attribute, headerOf.
  destruct (String.eqb_spec (attrKey Getenv i) EmptyString) as [-> | _];
    [exists cfg; repeat split |].
  destruct (String.eqb_spec (attrKey Getenv i) "layout") as [-> | _];
    [eexists; split; [reflexivity | repeat split] |].
  destruct (String.eqb_spec (attrKey Getenv i) "bearer-token") as [-> | _];
    [eexists; split; [reflexivity | repeat split] |].
  destruct (String.eqb_spec (attrKey Getenv i) "header") as [_ | _];
    [| exists cfg; repeat split].
  destruct (Z.leb_spec (Index (attrValue Getenv i) "=") 0) as [Hle | Hgt];
    [exists cfg; repeat split |].
  destruct (Index_range (attrValue Getenv i) "=") as [Hno | Hin]; [lia |].
  unfold Go.slice_to, Go.slice_from. rewrite !slice_in_bounds by lia.
  cbn [Go.obind]. eexists. split; [reflexivity |].
  cbn [IdleTimeout Layout BearerToken Headers setHeader].
  repeat split. change (Z.to_nat 0) with 0%nat. rewrite Z.sub_0_r.
  unfold Go.len. do 2 f_equal. lia.
Qed.

(** The scalar attributes: after [m] rounds a field holds the value of
    the last attribute that names it, or what it held before. *)
Lemma attributes_scalar (name : string) (field : config U -> string)
  (Hfield : forall i cfg cfg', attribute U Getenv i cfg = Go.Returns cfg' ->
              field cfg' = if String.eqb (attrKey Getenv i) name then attrValue Getenv i
                           else field cfg)
  (m : nat) : forall cfg0 cfg : config U,
  attributes U Getenv m cfg0 = Go.Returns cfg ->
  ((forall j : nat, (j < m)%nat -> attrKey Getenv (Z.of_nat j) <> name) ->
   field cfg = field cfg0) /\
  (forall i : nat, (i < m)%nat -> attrKey Getenv (Z.of_nat i) = name ->
     (forall j : nat, (i < j < m)%nat -> attrKey Getenv (Z.of_nat j) <> name) ->
     field cfg = attrValue Getenv (Z.of_nat i)).
Proof.
  induction m as [|m IH]; intros cfg0 cfg Hrun.
  - injection Hrun as <-. split; [reflexivity | intros i Hi; lia].
  - rewrite attributes_S in Hrun.
    destruct (attributes_returns m cfg0) as [mid Hmid]. rewrite Hmid in Hrun.
    cbn [Go.obind] in Hrun. specialize (Hfield _ _ _ Hrun).
    destruct (IH cfg0 mid Hmid) as [IHnone IHlast]. split.
    + intros Hnone. rewrite Hfield.
      rewrite (proj2 (String.eqb_neq _ _) (Hnone m (Nat.lt_succ_diag_r m))).
      apply IHnone. intros j Hj. apply Hnone. lia.
    + intros i Hi Hkey Hlater. rewrite Hfield.
      destruct (Nat.eq_dec i m) as [-> | Hne].
      * now rewrite Hkey, String.eqb_refl.
      * rewrite (proj2 (String.eqb_neq _ _) (Hlater m ltac:(lia))).
        apply IHlast; [lia | exact Hkey |]. intros j Hj. apply Hlater. lia.
Qed.

(** X13. The attributes are applied in the order of their indexes, and
    only the first [CRSH_NUM_ATTR] of them: the layout of the
    configuration is the value of the last [layout] attribute and
    [subdirs] when there is none; the bearer token is the value of the
    last [bearer-token] attribute and empty when there is none. *)
Theorem parseConfig_last_attribute_wins (cfg : config U) (n : Z) :
  parseConfig U Parse GOOS Getenv = Go.Returns (inr cfg) ->
  Atoi (orZero (Getenv "CRSH_NUM_ATTR")) = Some n ->
  ((forall j : nat, Z.of_nat j < n -> attrKey Getenv (Z.of_nat j) <> "layout") ->
   Layout cfg = "subdirs") /\
  (forall i : nat, Z.of_nat i < n -> attrKey Getenv (Z.of_nat i) = "layout" ->
     (forall j : nat, (i < j)%nat -> Z.of_nat j < n ->
        attrKey Getenv (Z.of_nat j) <> "layout") ->
     Layout cfg = attrValue Getenv (Z.of_nat i)) /\
  ((forall j : nat, Z.of_nat j < n -> attrKey Getenv (Z.of_nat j) <> "bearer-token") ->
   BearerToken cfg = EmptyString) /\
  (forall i : nat, Z.of_nat i < n -> attrKey Getenv (Z.of_nat i) = "bearer-token" ->
     (forall j : nat, (i < j)%nat -> Z.of_nat j < n ->
        attrKey Getenv (Z.of_nat j) <> "bearer-token") ->
     BearerToken cfg = attrValue Getenv (Z.of_nat i)).
Proof.
  intros Hparse Hn.
  destruct (parseConfig_config cfg Hparse) as (u & secs & n' & _ & Hn' & Hrun).
  rewrite Hn in Hn'. injection Hn' as <-.
  assert (HL : forall i c c', attribute U Getenv i c = Go.Returns c' ->
            Layout c' = if String.eqb (attrKey Getenv i) "layout" then attrValue Getenv i
                        else Layout c).
  { intros i c c' Hc. destruct (attribute_fields i c) as (c'' & Hc'' & _ & H & _).
    rewrite Hc in Hc''. injection Hc'' as <-. exact H. }
  assert (HB : forall i c c', attribute U Getenv i c = Go.Returns c' ->
            BearerToken c' = if String.eqb (attrKey Getenv i) "bearer-token"
                             then attrValue Getenv i else BearerToken c).
  { intros i c c' Hc. destruct (attribute_fields i c) as (c'' & Hc'' & _ & _ & H & _).
    rewrite Hc in Hc''. injection Hc'' as <-. exact H. }
  destruct (attributes_scalar "layout" Layout HL _ _ _ Hrun) as [HL0 HL1].
  destruct (attributes_scalar "bearer-token" BearerToken HB _ _ _ Hrun) as [HB0 HB1].
  split; [| split; [| split]].
  - intros Hnone. apply HL0. intros j Hj. apply Hnone. lia.
  - intros i Hi Hkey Hlater. apply HL1; [lia | exact Hkey |].
    intros j Hj. apply Hlater; lia.
  - intros Hnone. apply HB0. intros j Hj. apply Hnone. lia.
  - intros i Hi Hkey Hlater. apply HB1; [lia | exact Hkey |].
    intros j Hj. apply Hlater; lia.
Qed.






Lemma attributes_idle (m : nat) : forall cfg0 cfg : config U,
  attributes U Getenv m cfg0 = Go.Returns cfg -> IdleTimeout cfg = IdleTimeout cfg0.
Proof.
  induction m as [|m IH]; intros cfg0 cfg Hrun.
  - now injection Hrun as <-.
  - rewrite attributes_S in Hrun.
    destruct (attributes_returns m cfg0) as [mid Hmid]. rewrite Hmid in Hrun.
    cbn [Go.obind] in Hrun.
    destruct (attribute_fields (Z.of_nat m) mid) as (c & Hc & Hidle & _).
    rewrite Hrun in Hc. injection Hc as <-.
    rewrite Hidle. now apply IH.
Qed.

Lemma wrap64_small (z : Z) : - 2 ^ 63 <= z < 2 ^ 63 -> wrap64 z = z.
Proof. intros Hz. unfold wrap64. rewrite Z.mod_small; lia. Qed.

Lemma wrap64_multiple (q : Z) : wrap64 (q * 2 ^ 64) = 0.
Proof. unfold wrap64. rewrite Z.add_comm, Z_mod_plus_full. reflexivity. Qed.

(** X15. The idle timeout of the configuration is the number of seconds
    of [CRSH_IDLE_TIMEOUT] (0 when the variable is not set) times
    [time.Second], computed in 64 bits and untouched by the attributes.
    Up to 9223372036 seconds in either direction the product is exact,
    and it is zero, which disables the timer, only for 0 seconds; beyond
    that it wraps around, and every multiple of 2^55 seconds gives the
    timeout zero as well. *)
Theorem parseConfig_idle_timeout (cfg : config U) (secs : Z) :
  parseConfig U Parse GOOS Getenv = Go.Returns (inr cfg) ->
  Atoi (orZero (Getenv "CRSH_IDLE_TIMEOUT")) = Some secs ->
  IdleTimeout cfg = wrap64 (secs * Second) /\
  (Getenv "CRSH_IDLE_TIMEOUT" = EmptyString -> IdleTimeout cfg = 0) /\
  (- 9223372036 <= secs <= 9223372036 ->
   IdleTimeout cfg = secs * 1000000000 /\ (IdleTimeout cfg = 0 <-> secs = 0)) /\
  (secs mod 2 ^ 55 = 0 -> IdleTimeout cfg = 0).
Proof.
  intros Hparse Hsecs.
  destruct (parseConfig_config cfg Hparse) as (u & secs' & n & Hsecs' & _ & Hrun).
  rewrite Hsecs in Hsecs'. injection Hsecs' as <-.
  apply attributes_idle in Hrun. cbn [IdleTimeout] in Hrun.
  split; [exact Hrun |]. split; [| split].
  - intros Hunset. rewrite Hunset in Hsecs. injection Hsecs as <-.
    rewrite Hrun. reflexivity.
  - intros Hrange. rewrite Hrun. unfold Second.
    rewrite wrap64_small by lia. split; lia.
  - intros Hmult. rewrite Hrun.
    apply Z.mod_divide in Hmult; [| discriminate]. destruct Hmult as [q ->].
    unfold Second.
    replace (q * 2 ^ 55 * 1000000000) with ((q * 1953125) * 2 ^ 64) by lia.
    apply wrap64_multiple.
Qed.

End ConfigFacts.

Lemma parseConfig_returns_witness :
  exists cfg, SampleEnv.parsed = Go.Returns (inr cfg).
Proof.
  apply (proj2 (proj2 (parseConfig_returns string SampleEnv.Parse "linux"
                         SampleEnv.Getenv))).
  split; [discriminate |]. split; [now exists "http://h/cache" |].
  split; discriminate.
Defined.


Lemma sample_is_parsed : exists cfg, SampleEnv.parsed = Go.Returns (inr cfg).
Proof. eexists. vm_compute. reflexivity. Defined.

Lemma parseConfig_last_attribute_wins_witness :
  exists cfg, SampleEnv.parsed = Go.Returns (inr cfg) /\ Config.Layout cfg = "bazel".
Proof.
  destruct sample_is_parsed as [cfg Hparsed]. exists cfg. split; [exact Hparsed |].
  refine (proj1 (proj2 (parseConfig_last_attribute_wins string SampleEnv.Parse "linux"
                          SampleEnv.Getenv cfg 4 Hparsed eq_refl)) 2%nat _ eq_refl _).
  - lia.
  - intros j Hlt Hj. assert (j = 3%nat) as -> by lia. vm_compute. discriminate.
Defined.


Lemma parseConfig_idle_timeout_witness :
  exists cfg, SampleEnv.parsed = Go.Returns (inr cfg) /\
              Config.IdleTimeout cfg = 300000000000.
Proof.
  destruct sample_is_parsed as [cfg Hparsed]. exists cfg. split; [exact Hparsed |].
  refine (proj1 (proj1 (proj2 (proj2
           (parseConfig_idle_timeout string SampleEnv.Parse "linux"
              SampleEnv.Getenv cfg 300 Hparsed eq_refl))) _)).
  lia.
Defined.

Example parseConfig_sample :
  match SampleEnv.parsed with
  | Go.Returns (inr cfg) =>
      (Config.Layout cfg, Config.IdleTimeout cfg,
       map_to_list (Config.Headers cfg), Config.IPCEndpoint cfg)
      = ("bazel", 300000000000, [("X-Tag", "a=b")], "/tmp/crsh.sock")
  | _ => False
  end.
Proof. vm_compute. reflexivity. Qed.

(** ** What is written is never taken back *)

Section OutputFacts.

Import Protocol Server.

Lemma grows_same {A : Type} (m : IO.io Conn A) :
  (forall c, outgoing (snd (m c)) = outgoing c) -> grows m.
Proof. intros Hm c. exists []. now rewrite app_nil_r. Qed.

Lemma grows_bind {A B : Type} (m : IO.io Conn A) (k : A -> IO.io Conn B) :
  grows m -> (forall a, grows (k a)) -> grows (IO.bind m k).
Proof.
  intros Hm Hk c. unfold IO.bind. destruct (Hm c) as [more Hmore].
  destruct (m c) as [[a | e | w] c']; cbn [snd] in *; [| eauto | eauto].
  destruct (Hk a c') as [more' Hmore']. exists (more ++ more')%list.
  now rewrite Hmore', Hmore, app_assoc.
Qed.

Lemma grows_Write (p : list byte) : grows (Write p).
Proof.
  intros c. unfold Write. destruct (room c) as [k|]; [| now exists p].
  destruct (List.length p <=? k)%nat; cbn [snd outgoing]; eauto.
Qed.

Lemma grows_ReadFull (n : nat) : grows (ReadFull n).
Proof.
  apply grows_same. intros c. unfold ReadFull.
  destruct (n =? 0)%nat; [reflexivity |].
  destruct (incoming c); [reflexivity |].
  now destruct (n <=? _)%nat.
Qed.

Lemma grows_ret {A : Type} (a : A) : grows (IO.ret a).
Proof. now apply grows_same. Qed.

Lemma grows_eval {A : Type} (x : Go.outcome A) : grows (IO.eval x).
Proof. apply grows_same. intros c. now destruct x. Qed.

Create HintDb grows.
#[local] Hint Resolve grows_ret grows_eval grows_Write grows_ReadFull : grows.

Ltac grows_steps :=
  repeat (first [ apply grows_bind; [| intros ? ] | solve [auto with grows] ]).

Lemma grows_readByte : grows readByte.
Proof. unfold readByte. grows_steps. Qed.

Lemma grows_writeByte (b : byte) : grows (writeByte b).
Proof. apply grows_Write. Qed.

#[local] Hint Resolve grows_readByte grows_writeByte : grows.

Lemma grows_readKey : grows readKey.
Proof. unfold readKey. grows_steps. Qed.

Lemma grows_readValue (order : ByteOrder) : grows (readValue order).
Proof. unfold readValue. grows_steps. Qed.

Lemma grows_writeValue (order : ByteOrder) (value : list byte) :
  grows (writeValue order value).
Proof. unfold writeValue. grows_steps. Qed.

Lemma grows_writeErr (msg : string) : grows (writeErr msg).
Proof. unfold writeErr, writeMsg. grows_steps. Qed.

Lemma grows_writeGreeting : grows writeGreeting.
Proof. unfold writeGreeting. cbn [fold_right]. grows_steps. Qed.

#[local] Hint Resolve grows_readKey grows_readValue grows_writeValue grows_writeErr
  : grows.

Lemma grows2_ret {St A : Type} (a : A) : grows2 (St := St) (IO.ret a).
Proof. intros st. exists []. cbn. now rewrite app_nil_r. Qed.

Lemma grows2_bind {St A B : Type} (m : IO.io (Conn * St) A)
  (k : A -> IO.io (Conn * St) B) :
  grows2 m -> (forall a, grows2 (k a)) -> grows2 (IO.bind m k).
Proof.
  intros Hm Hk st. unfold IO.bind. destruct (Hm st) as [more Hmore].
  destruct (m st) as [[a | e | w] st']; cbn [snd] in *; [| eauto | eauto].
  destruct (Hk a st') as [more' Hmore']. exists (more ++ more')%list.
  now rewrite Hmore', Hmore, app_assoc.
Qed.

Lemma grows2_onFst {St A : Type} (m : IO.io Conn A) :
  grows m -> grows2 (St := St) (IO.onFst m).
Proof. intros Hm [c st]. rewrite onFst_run. apply Hm. Qed.

Lemma grows2_try_onSnd {St A : Type} (m : IO.io St A) :
  grows2 (IO.try (IO.onSnd (S1 := Conn) m)).
Proof.
  intros [c st]. unfold IO.try. rewrite onSnd_run. exists [].
  destruct (m st) as [[a | e | w] st']; cbn; now rewrite app_nil_r.
Qed.

Ltac grows2_steps :=
  repeat (first [ apply grows2_bind; [| intros ? ]
                | apply grows2_try_onSnd
                | apply grows2_ret
                | apply grows2_onFst; solve [auto with grows]
                | match goal with
                  | |- grows2 (match ?x with _ => _ end) => destruct x
                  | |- grows2 (if ?b then _ else _) => destruct b
                  end ]).

Lemma grows2_processRequest {T St : Type} `{storage T St} (order : ByteOrder) (s : T) :
  grows2 (processRequest order s).
Proof.
  unfold processRequest, readRequest, handleGet, handlePut, handleRemove, handleStop,
    writeOK, writeNoop.
  grows2_steps.
Qed.

Lemma requestLoop_grows (order : ByteOrder) (fuel : nat) :
  forall (s s' : ipcServer) (st : Conn * HTTP.Client) (e : ending)
         (c' : Conn) (h' : HTTP.Client),
    requestLoop order fuel s st = Some (e, s', (c', h')) ->
    exists more, outgoing c' = (outgoing (fst st) ++ more)%list.
Proof.
  induction fuel as [|fuel IH]; intros s s' st e c' h' Hloop; [discriminate |].
  cbn [requestLoop] in Hloop.
  destruct (grows2_processRequest order (storage_ s) st) as [more Hmore].
  destruct (processRequest order (storage_ s) st) as [[[|] | err | w] [c h]];
    cbn [fst snd] in Hmore.
  - injection Hloop as <- <- <- <-. now exists more.
  - destruct (IH _ _ _ _ _ _ Hloop) as [more' Hmore']. cbn [fst] in Hmore'.
    exists (more ++ more')%list. now rewrite Hmore', Hmore, app_assoc.
  - injection Hloop as <- <- <- <-. now exists more.
  - injection Hloop as <- <- <- <-. now exists more.
Qed.

(** X16. Whatever the peer sends, [handleConnection] only ever adds to
    the bytes already written, and on a connection that accepts writes
    the first bytes it adds are the greeting: version 1 and the one
    capability 0. *)
Theorem greeting_comes_first (order : ByteOrder) (s : ipcServer)
  (inc out : list byte) (cl : bool) (h : HTTP.Client) :
  greeting = [protocolVersion; x01; cap0] /\
  exists (e : ending) (s' : ipcServer) (c' : Conn) (h' : HTTP.Client)
         (more : list byte),
    handleConnection order s (mkConn inc out None cl, h) = Some (e, s', (c', h')) /\
    outgoing c' = (out ++ greeting ++ more)%list.
Proof.
  split; [reflexivity |].
  pose proof (handleConnection_returns order s (mkConn inc out None cl, h)) as Hsome.
  destruct (handleConnection order s (mkConn inc out None cl, h))
    as [[[e s'] [c' h']]|] eqn:Hrun; [| contradiction].
  exists e, s', c', h'.
  unfold handleConnection in Hrun.
  change (IO.onFst writeGreeting (mkConn inc out None cl, h))
    with (@IO.Ok unit tt, (mkConn inc (((out ++ [protocolVersion]) ++ [x01]) ++ [cap0]) None cl, h))
    in Hrun.
  cbv beta iota in Hrun.
  destruct (requestLoop_grows order _ _ _ _ _ _ _ Hrun) as [more Hmore].
  cbn [fst outgoing] in Hmore. exists more. split; [reflexivity |].
  rewrite Hmore. change greeting with [protocolVersion; x01; cap0].
  now rewrite <- !app_assoc.
Qed.

End OutputFacts.

(** ** A length that no slice can have *)

Section OversizedValue.

Import Protocol Server.

(** X17. A put request whose length field is above the largest [int]
    makes [readValue] panic in [make]: nothing is written, the storage is
    not called, and the handler of the connection goes down with the
    panic instead of returning a framing error. *)
Theorem oversized_value_length_panics (order : ByteOrder) (srv : ipcServer)
  (h : HTTP.Client) (key : list byte) (flags : byte) (len : Z)
  (rest out : list byte) (r : option nat) (cl : bool) :
  (List.length key <= 255)%nat -> maxInt < len < 2 ^ 64 ->
  let c := mkConn (requestPut :: wire (writeKey key) ++ flags
                     :: PutUint64 order len ++ rest) out r cl in
  processRequest order (storage_ srv) (c, h)
    = (IO.Crash "makeslice: len out of range", (mkConn rest out r cl, h)) /\
  forall fuel : nat,
    requestLoop order (S fuel) srv (c, h)
      = Some (Panicked "makeslice: len out of range", srv,
              (mkConn rest out r true, h)).
Proof.
  intros Hkey Hlen c.
  assert (Hcrash : processRequest order (storage_ srv) (c, h)
            = (IO.Crash "makeslice: len out of range", (mkConn rest out r cl, h))).
  { assert (Hvalue : readValue order (mkConn (PutUint64 order len ++ rest) out r cl)
              = (IO.Crash "makeslice: len out of range", mkConn rest out r cl)).
    { unfold readValue, IO.bind.
      pose proof (ReadFull_exact (PutUint64 order len) rest out r cl) as Hhead.
      rewrite length_PutUint64 in Hhead. rewrite Hhead.
      rewrite Uint64_PutUint64 by (unfold maxInt in Hlen; lia).
      unfold makeBytes. now rewrite (proj2 (Z.leb_gt _ _) (proj1 Hlen)). }
    assert (Hput : handlePut order (storage_ srv)
              (mkConn (wire (writeKey key) ++ flags :: PutUint64 order len ++ rest)
                 out r cl, h)
              = (IO.Crash "makeslice: len out of range", (mkConn rest out r cl, h))).
    { unfold handlePut. rewrite wire_writeKey. cbn [app].
      unfold IO.bind at 1. rewrite onFst_run, readKey_encoded by exact Hkey.
      cbn [fst snd].
      unfold IO.bind at 1. rewrite onFst_run, readByte_cons. cbn [fst snd].
      unfold IO.bind at 1. now rewrite onFst_run, Hvalue. }
    unfold c, processRequest. unfold IO.bind at 1.
    rewrite onFst_run. unfold readRequest. rewrite readByte_cons. cbn [fst snd].
    change (Byte.eqb requestPut requestGet) with false.
    change (Byte.eqb requestPut requestPut) with true. cbv iota.
    unfold IO.bind. now rewrite Hput. }
  split; [exact Hcrash |].
  intros fuel. cbn [requestLoop]. now rewrite Hcrash.
Qed.

Lemma oversized_value_length_panics_witness :
  requestLoop LittleEndian 1 Sample.server
    (mkConn (requestPut :: wire (writeKey [xab]) ++ x00
               :: PutUint64 LittleEndian (2 ^ 64 - 1) ++ [])
       [] None false,
     Sample.unreachable)
  = Some (Panicked "makeslice: len out of range", Sample.server,
          (mkConn [] [] None true, Sample.unreachable)).
Proof.
  refine (proj2 (oversized_value_length_panics LittleEndian Sample.server
                   Sample.unreachable [xab] x00 (2 ^ 64 - 1) [] [] None false _ _)
            0%nat).
  - simpl. lia.
  - vm_compute. split; reflexivity.
Defined.

End OversizedValue.

(** ** Nothing is sent that was not configured *)

Section HeaderProvenance.

Import Storage HTTP.

Lemma rangeHeaders_names (hs : list (string * string)) :
  forall (h : gmap string string) (name : string),
    rangeHeaders hs h !! name <> None ->
    h !! name <> None \/
    exists kv, In kv hs /\ CanonicalMIMEHeaderKey (fst kv) = name.
Proof.
  unfold rangeHeaders.
  induction hs as [|[k v] hs IH]; intros h name Hin; [now left |].
  cbn [fold_left fst snd] in Hin.
  destruct (IH _ _ Hin) as [Hset | (kv & Hkv & Hname)].
  - unfold Set_ in Hset.
    destruct (decide (CanonicalMIMEHeaderKey k = name)) as [Heq | Hne].
    + right. exists (k, v). split; [now left | exact Heq].
    + rewrite lookup_insert_ne in Hset by exact Hne. now left.
  - right. exists kv. split; [now right | exact Hname].
Qed.

Lemma addHeaders_names (s : storageClient) (req : Request) (name : string) :
  Hdr req = ∅ ->
  Hdr (addHeaders s req) !! name <> None ->
  (name = "Authorization" /\ bearerToken s <> EmptyString) \/
  exists kv, In kv (headers s) /\ CanonicalMIMEHeaderKey (fst kv) = name.
Proof.
  intros Hempty Hin. rewrite Hdr_addHeaders, Hempty in Hin.
  destruct (rangeHeaders_names _ _ _ Hin) as [Hbase | Hextra]; [| now right].
  destruct (String.eqb_spec (bearerToken s) EmptyString) as [Htok | Htok].
  - now rewrite lookup_empty in Hbase.
  - unfold Set_ in Hbase.
    destruct (decide (CanonicalMIMEHeaderKey "Authorization" = name)) as [<- | Hne].
    + left. split; [reflexivity | exact Htok].
    + rewrite lookup_insert_ne, lookup_empty in Hbase by exact Hne. contradiction.
Qed.

(** X18. Every header of every request that [get], [put] and [remove]
    send comes from the configuration: it is [Authorization] with a
    bearer token configured, or the canonical form of the name of a
    configured extra header, or the [Content-Type] of a [PUT]. With no
    token and no extra headers the requests carry no header but that
    [Content-Type]. *)
Theorem request_headers_are_configured (s : storageClient) (key value : list byte)
  (overwrite : bool) (c : Client) (req : Request) (name : string) :
  In req (newlySent c (snd (get s key c))) \/
  In req (newlySent c (snd (put s key value overwrite c))) \/
  In req (newlySent c (snd (remove s key c))) ->
  Hdr req !! name <> None ->
  (name = "Authorization" /\ bearerToken s <> EmptyString) \/
  (exists kv, In kv (headers s) /\ CanonicalMIMEHeaderKey (fst kv) = name) \/
  (name = "Content-Type" /\ Method req = PUT).
Proof.
  intros Hsent Hin.
  assert (Hout : outgoing_request s req).
  { destruct Hsent as [Hreq | [Hreq | Hreq]];
      [ pose proof (get_requests s key c) as Hall
      | pose proof (put_requests_outgoing s key value overwrite c) as Hall
      | pose proof (remove_requests s key c) as Hall ];
      rewrite List.Forall_forall in Hall; now apply Hall. }
  destruct Hout as [urlStr | urlStr | urlStr | urlStr body].
  1-3: (apply addHeaders_names in Hin; [destruct Hin; auto | reflexivity]).
  unfold setHeader, Set_ in Hin. cbn [Hdr] in Hin.
  destruct (decide (CanonicalMIMEHeaderKey "Content-Type" = name)) as [<- | Hne].
  - right. right. split; [reflexivity |].
    cbn [Method]. apply Method_addHeaders.
  - rewrite lookup_insert_ne in Hin by exact Hne.
    apply addHeaders_names in Hin; [destruct Hin; auto | reflexivity].
Qed.

Lemma request_headers_are_configured_witness :
  ("Authorization" = "Authorization" /\ bearerToken Sample.typed <> EmptyString) \/
  (exists kv, In kv (headers Sample.typed) /\
              CanonicalMIMEHeaderKey (fst kv) = "Authorization") \/
  ("Authorization" = "Content-Type" /\
   Method (addHeaders Sample.typed (NewRequest GET "http://h/cache/ab/cd" [])) = PUT).
Proof.
  refine (request_headers_are_configured Sample.typed [xab; xcd] [] true
            (Sample.always 200 [])
            (addHeaders Sample.typed (NewRequest GET "http://h/cache/ab/cd" []))
            "Authorization" _ _).
  - left. vm_compute. now left.
  - vm_compute. discriminate.
Defined.

End HeaderProvenance.

(** ** The order in which the headers map is visited *)

Section HeaderOrder.

Import Storage HTTP.

Lemma rangeHeaders_order (hs1 hs2 : list (string * string)) :
  Permutation hs1 hs2 ->
  NoDup (map (fun kv => CanonicalMIMEHeaderKey (fst kv)) hs1) ->
  forall h : gmap string string, rangeHeaders hs1 h = rangeHeaders hs2 h.
Proof.
  unfold rangeHeaders.
  induction 1 as [| kv l l' Hperm IH | kv1 kv2 l | l l' l'' H1 IH1 H2 IH2];
    intros Hnodup h.
  - reflexivity.
  - cbn [fold_left]. apply IH. cbn [map] in Hnodup. now apply NoDup_cons_1_2 in Hnodup.
  - cbn [fold_left]. f_equal. unfold Set_.
    cbn [map] in Hnodup. apply NoDup_cons_1_1 in Hnodup.
    apply insert_insert_ne. intros Heq. apply Hnodup. rewrite Heq. now left.
  - rewrite IH1 by exact Hnodup. apply IH2.
    assert (Hmap : Permutation
              (map (fun kv => CanonicalMIMEHeaderKey (fst kv)) l)
              (map (fun kv => CanonicalMIMEHeaderKey (fst kv)) l'))
      by now apply Permutation_map.
    now rewrite <- Hmap.
Qed.

(** X19. Go visits the extra headers in an order of its own choosing on
    every call. As long as no two configured names have the same
    canonical form, the order does not matter: [addHeaders] gives the
    same request for every order. *)
Theorem addHeaders_order_independent (s : storageClient)
  (order' : list (string * string)) (req : Request) :
  Permutation (headers s) order' ->
  NoDup (map (fun kv => CanonicalMIMEHeaderKey (fst kv)) (headers s)) ->
  addHeaders (mkStorageClient (baseURL s) (layout s) (bearerToken s) order') req
    = addHeaders s req.
Proof.
  intros Hperm Hnodup. unfold addHeaders. cbn [bearerToken headers].
  f_equal. symmetry. now apply rangeHeaders_order.
Qed.

Lemma addHeaders_order_independent_witness :
  addHeaders
    (mkStorageClient Sample.base "subdirs" "secret"
       [("x-b", "2"); ("x-a", "1")])
    (NewRequest GET "http://h/cache/ab/cd" [])
  = addHeaders
      (mkStorageClient Sample.base "subdirs" "secret"
         [("x-a", "1"); ("x-b", "2")])
      (NewRequest GET "http://h/cache/ab/cd" []).
Proof.
  refine (addHeaders_order_independent
            (mkStorageClient Sample.base "subdirs" "secret"
               [("x-a", "1"); ("x-b", "2")])
            [("x-b", "2"); ("x-a", "1")] _ _ _).
  - apply perm_swap.
  - vm_compute. apply NoDup_cons. split; [| apply NoDup_singleton].
    intros Hin. apply list_elem_of_singleton in Hin. discriminate Hin.
Defined.

(** When two names do share a canonical form, the order decides which
    value is sent. *)
Example addHeaders_order_matters :
  Get "X-A"
    (Hdr (addHeaders (mkStorageClient Sample.base "subdirs" EmptyString
                        [("x-a", "1"); ("X-A", "2")])
            (NewRequest GET "http://h/cache/ab/cd" [])))
    = Some "2" /\
  Get "X-A"
    (Hdr (addHeaders (mkStorageClient Sample.base "subdirs" EmptyString
                        [("X-A", "2"); ("x-a", "1")])
            (NewRequest GET "http://h/cache/ab/cd" [])))
    = Some "1".
Proof. split; vm_compute; reflexivity. Qed.

End HeaderOrder.
